(** * actorlib: the actor runtime and its futures

    A shallow embedding of [src/source/actorlib.hpp] and
    [src/source/actorlib.cpp], and what holds of it.

    The first part is the model:
    - [Actor]: the mailbox of an actor, the worker loop [actor::run], the
      enqueue operation [actor::put] and the destructor, as a transition
      system whose steps are the atomic actions of the threads involved.
      Each critical section of [m_mutex] is one step; [m_sem] is a counting
      semaphore. [signal_step] adds the return of [sem_wait] on a signal.
    - [Result]: the reference-counted storage [result<R>::data] and the
      operations of the handles [result<R>] on it. [m_ref_count] is a
      [size_t], with its wrap-around.
    - [Future]: [data::get] and [data::set] as threads over the mutex and
      the condition variable of one [data], with the wake-ups that
      [pthread_cond_signal] and [pthread_cond_wait] allow.
    - [Enqueue]: [put] of a member function that returns a value, on the
      [integer] actor of [src/examples/pingpong/main.cpp].
    - [Arity]: the overloads of [actor::put] and of [invoker::exec].
    - [PingPong]: the program of [src/examples/pingpong/main.cpp], its four
      actors and [main], over mailboxes that are served in order.

    The second part has the properties, one module of facts for each module
    of the model. *)

From Stdlib Require Import ZArith Lia.
From Stdlib Require String Ascii DecimalString.
From stdpp Require Import base option list gmap.

(** * Model *)

(** ** The mailbox and the worker loop *)

Module Actor.

(** [message::exec] is virtual: what a bound call [handler] (member
    function and captured arguments) does to the memory [U] it works on (the
    members of the derived class, which the worker thread alone touches, and
    what the call reaches from there) is given by the derived class. *)
Class Exec (handler U : Type) : Type :=
  invoke : handler -> U -> U.

Section Mailbox.
Context {U handler : Type} `{!Exec handler U}.

(** A queued [message]. [Exit] is the [object_message_0<actor, void>] that
    [actor::exit] builds around [actor::_exit]. *)
Inductive message : Type :=
| Exit
| Call (h : handler).

Definition is_exit (msg : message) : bool :=
  match msg with Exit => true | Call _ => false end.

(** Where the worker thread is inside [actor::run]. *)
Inductive worker_pc : Type :=
| AtLoop                  (* line 48: about to test m_loop *)
| AtWait                  (* line 50: inside sem_wait *)
| AtLock                  (* lines 53-57: sem_wait has returned *)
| AtExec (msg : message)  (* lines 60-61: msg->exec(); delete msg *)
| Returned                (* run has returned, the thread is over *)
| Aborted.                (* the assert of line 54 failed *)

(** Where the destroying thread is inside [actor::~actor]. *)
Inductive dtor_pc : Type :=
| Alive                   (* the destructor has not been entered *)
| DtorPushed              (* exit(): lines 32-34 of put done, sem_post pending *)
| DtorJoin                (* line 24: inside pthread_join *)
| Destroyed.              (* the destructor has returned *)

(** The members of [actor], the control points of the threads, and the
    history of the mailbox ([enqueued], [executed], [requested]), which no
    step reads. [posting] counts the callers of [put] that have left the
    critical section (line 34) and not yet posted the semaphore (line 35).
    [requested] is the number of messages enqueued before the destructor
    pushed its sentinel. *)
Record actor : Type := mk_actor {
  m_loop : bool;
  m_sem : nat;
  m_messages : list message;
  worker : worker_pc;
  posting : nat;
  dtor : dtor_pc;
  derived : U;
  enqueued : list message;
  executed : list message;
  requested : option nat;
}.

(** [actor::actor]: the loop flag is set, the semaphore starts at 0 and
    the thread starts in [run]. *)
Definition init (u : U) : actor :=
  {| m_loop := true; m_sem := 0; m_messages := []; worker := AtLoop;
     posting := 0; dtor := Alive; derived := u;
     enqueued := []; executed := []; requested := None |}.

Definition set_worker (pc : worker_pc) (a : actor) : actor :=
  {| m_loop := m_loop a; m_sem := m_sem a; m_messages := m_messages a;
     worker := pc; posting := posting a; dtor := dtor a;
     derived := derived a; enqueued := enqueued a; executed := executed a;
     requested := requested a |}.

Definition set_dtor (pc : dtor_pc) (a : actor) : actor :=
  {| m_loop := m_loop a; m_sem := m_sem a; m_messages := m_messages a;
     worker := worker a; posting := posting a; dtor := pc;
     derived := derived a; enqueued := enqueued a; executed := executed a;
     requested := requested a |}.

Definition set_posting (n : nat) (a : actor) : actor :=
  {| m_loop := m_loop a; m_sem := m_sem a; m_messages := m_messages a;
     worker := worker a; posting := n; dtor := dtor a;
     derived := derived a; enqueued := enqueued a; executed := executed a;
     requested := requested a |}.

Definition set_sem (n : nat) (a : actor) : actor :=
  {| m_loop := m_loop a; m_sem := n; m_messages := m_messages a;
     worker := worker a; posting := posting a; dtor := dtor a;
     derived := derived a; enqueued := enqueued a; executed := executed a;
     requested := requested a |}.

Definition set_derived (u : U) (a : actor) : actor :=
  {| m_loop := m_loop a; m_sem := m_sem a; m_messages := m_messages a;
     worker := worker a; posting := posting a; dtor := dtor a;
     derived := u; enqueued := enqueued a; executed := executed a;
     requested := requested a |}.

(** Lines 32-34 of [actor::put]: [m_messages.push_back(msg)] under the
    mutex. *)
Definition push_back (msg : message) (a : actor) : actor :=
  {| m_loop := m_loop a; m_sem := m_sem a;
     m_messages := m_messages a ++ [msg];
     worker := worker a; posting := posting a; dtor := dtor a;
     derived := derived a; enqueued := enqueued a ++ [msg];
     executed := executed a; requested := requested a |}.

(** Line 35 of [actor::put]. *)
Definition sem_post (a : actor) : actor := set_sem (S (m_sem a)) a.

(** Lines 55-56 of [actor::run]: the list without its front. *)
Definition pop_front (a : actor) : actor :=
  {| m_loop := m_loop a; m_sem := m_sem a;
     m_messages := tail (m_messages a);
     worker := worker a; posting := posting a; dtor := dtor a;
     derived := derived a; enqueued := enqueued a;
     executed := executed a; requested := requested a |}.

(** [msg->exec()]: the sentinel runs [actor::_exit], which clears the loop
    flag; any other message runs its bound call on the derived object. *)
Definition exec (msg : message) (a : actor) : actor :=
  {| m_loop := match msg with Exit => false | Call _ => m_loop a end;
     m_sem := m_sem a; m_messages := m_messages a;
     worker := worker a; posting := posting a; dtor := dtor a;
     derived := match msg with Exit => derived a | Call h => invoke h (derived a) end;
     enqueued := enqueued a; executed := executed a ++ [msg];
     requested := requested a |}.

Definition mark_requested (a : actor) : actor :=
  {| m_loop := m_loop a; m_sem := m_sem a; m_messages := m_messages a;
     worker := worker a; posting := posting a; dtor := dtor a;
     derived := derived a; enqueued := enqueued a; executed := executed a;
     requested := Some (length (enqueued a)) |}.

(** The atomic actions. [PutPush msg] and [PutPost] are the two halves of
    a call of [actor::put] by any thread (a caller of a public method of
    the derived class, a handler of this or another actor, or a derived
    class calling the protected [exit], which is [PutPush Exit]). *)
Inductive event : Type :=
| PutPush (msg : message)
| PutPost
| Run
| Destroy.

(** One step of [actor::run]. A thread inside [sem_wait] moves only when
    the semaphore is positive, and by decrementing it: no signal handler
    interrupts the wait. *)
Definition run_step (a : actor) : option actor :=
  match worker a with
  | AtLoop =>
      if m_loop a then Some (set_worker AtWait a)
      else Some (set_worker Returned a)
  | AtWait =>
      match m_sem a with
      | 0 => None
      | S n => Some (set_worker AtLock (set_sem n a))
      end
  | AtLock =>
      match m_messages a with
      | [] => Some (set_worker Aborted a)
      | msg :: _ => Some (set_worker (AtExec msg) (pop_front a))
      end
  | AtExec msg => Some (set_worker AtLoop (exec msg a))
  | Returned | Aborted => None
  end.

(** One step of [actor::~actor]: [exit()] is [put] of the sentinel, then
    [pthread_join] returns once the worker thread is over. *)
Definition destroy (a : actor) : option actor :=
  match dtor a with
  | Alive => Some (set_dtor DtorPushed (push_back Exit (mark_requested a)))
  | DtorPushed => Some (set_dtor DtorJoin (sem_post a))
  | DtorJoin =>
      match worker a with
      | Returned => Some (set_dtor Destroyed a)
      | _ => None
      end
  | Destroyed => None
  end.

(** No member of a destroyed actor is used. *)
Definition step (a : actor) (e : event) : option actor :=
  match e with
  | PutPush msg =>
      match dtor a with
      | Destroyed => None
      | _ => Some (set_posting (S (posting a)) (push_back msg a))
      end
  | PutPost =>
      match dtor a, posting a with
      | Destroyed, _ | _, 0 => None
      | _, S n => Some (sem_post (set_posting n a))
      end
  | Run => run_step a
  | Destroy => destroy a
  end.

Fixpoint steps (tr : list event) (a : actor) : option actor :=
  match tr with
  | [] => Some a
  | e :: tr' =>
      match step a e with
      | Some a' => steps tr' a'
      | None => None
      end
  end.

(** The message the worker has taken from the list and not yet executed. *)
Definition in_flight (a : actor) : list message :=
  match worker a with AtExec msg => [msg] | _ => [] end.

(** The part of a queue up to and including its first sentinel. *)
Fixpoint through_exit (l : list message) : list message :=
  match l with
  | [] => []
  | Exit :: _ => [Exit]
  | Call h :: l' => Call h :: through_exit l'
  end.

Definition has_exit (l : list message) : bool := existsb is_exit l.

(** The derived state after the calls of [l], in order. *)
Definition replay (l : list message) (u : U) : U :=
  fold_left (fun u msg => match msg with Exit => u | Call h => invoke h u end) l u.

Definition at_lock (a : actor) : nat :=
  match worker a with AtLock => 1 | _ => 0 end.

Definition dtor_posting (a : actor) : nat :=
  match dtor a with DtorPushed => 1 | _ => 0 end.

(** The semaphore counts the messages of the list: every message is
    covered by the semaphore, by a post still to come, or by the worker
    that has passed [sem_wait]; and the assert has not failed. *)
Definition sem_inv (a : actor) : Prop :=
  m_sem a + posting a + dtor_posting a + at_lock a = length (m_messages a) /\
  worker a <> Aborted.

(** The messages ever enqueued are those executed, the one in execution
    and those of the list, in this order. *)
Definition fifo_inv (u0 : U) (a : actor) : Prop :=
  enqueued a = executed a ++ in_flight a ++ m_messages a /\
  derived a = replay (executed a) u0.

(** The loop flag is cleared by the sentinel only, and the worker runs
    nothing after it. *)
Definition loop_inv (a : actor) : Prop :=
  (m_loop a = true -> has_exit (executed a) = false /\ worker a <> Returned) /\
  (m_loop a = false ->
     (exists pre, executed a = pre ++ [Exit] /\ has_exit pre = false) /\
     (worker a = AtLoop \/ worker a = Returned)).

(** The destructor's sentinel sits at position [requested], and the
    destructor returns only after the worker thread. *)
Definition dtor_inv (a : actor) : Prop :=
  match dtor a with
  | Alive => requested a = None
  | DtorPushed | DtorJoin =>
      exists n, requested a = Some n /\ enqueued a !! n = Some Exit
  | Destroyed =>
      (exists n, requested a = Some n /\ enqueued a !! n = Some Exit) /\
      worker a = Returned
  end.

Definition inv (u0 : U) (a : actor) : Prop :=
  sem_inv a /\ fifo_inv u0 a /\ loop_inv a /\ dtor_inv a.

Definition reachable (u0 : U) (a : actor) : Prop :=
  exists tr, steps tr (init u0) = Some a.

(** The worker thread scheduled alone until it blocks or returns, for at
    most [fuel] steps. *)
Fixpoint run_alone (fuel : nat) (a : actor) : actor :=
  match fuel with
  | 0 => a
  | S fuel' =>
      match run_step a with
      | Some a' => run_alone fuel' a'
      | None => a
      end
  end.

(** Every call of [put] that pushed its message has also posted. *)
Definition quiescent (a : actor) : Prop :=
  posting a = 0 /\ dtor a <> DtorPushed.

(** The destructor has returned only after everything enqueued before its
    sentinel was executed. *)
Definition drained_before_return (a : actor) : Prop :=
  forall n, requested a = Some n -> take n (enqueued a) `prefix_of` executed a.

End Mailbox.

(** *** The [integer] actor of the example

    [integer] of [examples/pingpong/main.cpp] with its handler [_set]: the
    derived state is [m_value], a bound call carries the captured [v]. *)

#[export] Instance integer_set : Exec Z Z :=
  fun (v : Z) (m_value : Z) => v.

Definition integer : Type := @actor Z Z.

(** [set(7)] was called and the worker has passed [sem_wait]. *)
Definition set_trace : list (@event Z) :=
  [PutPush (Call 7%Z); PutPost; Run; Run].

Definition set_state : integer :=
  mk_actor true 0 [Call 7%Z] AtLock 0 Alive 0%Z [Call 7%Z] [] None.



(** A derived class called [exit()], then [set(7)] was called. *)
Definition exit_first_trace : list (@event Z) :=
  [PutPush Exit; PutPost; PutPush (Call 7%Z); PutPost; Run; Run; Run].

Definition exit_first_state : integer :=
  mk_actor true 1 [Call 7%Z] (AtExec Exit) 0 Alive 0%Z
    [Exit; Call 7%Z] [] None.

(** [set(7)] was called, then the actor was destroyed. *)
Definition destroy_trace : list (@event Z) :=
  [PutPush (Call 7%Z); PutPost; Destroy; Destroy] ++ replicate 9 Run ++ [Destroy].

Definition destroy_state : integer :=
  mk_actor false 0 [] Returned 0 Destroyed 7%Z
    [Call 7%Z; Exit] [Call 7%Z; Exit] (Some 1).

(** A derived class called [exit()], then [set(7)] was called, then the
    actor was destroyed. *)
Definition exit_destroy_trace : list (@event Z) :=
  [PutPush Exit; PutPost; PutPush (Call 7%Z); PutPost] ++ replicate 5 Run ++
  [Destroy; Destroy; Destroy].

Definition exit_destroy_state : integer :=
  mk_actor false 2 [Call 7%Z; Exit] Returned 0 Destroyed 0%Z
    [Exit; Call 7%Z; Exit] [Exit] (Some 2).

(** *** Signals

    [sem_wait] also returns when a signal handler interrupts it: it then
    returns -1 with [errno] set to [EINTR] and has not decremented the
    semaphore. Line 50 of actorlib.cpp drops the result of [sem_wait], so
    the worker goes on to line 53 as it does after a wait that succeeded. *)

Section Signals.
Context {U handler : Type} `{!Exec handler U}.

Definition interrupt (a : @actor U handler) : option (@actor U handler) :=
  match worker a with
  | AtWait => Some (set_worker AtLock a)
  | _ => None
  end.

(** The atomic actions of the threads, and the return of the worker's
    [sem_wait] on a signal. *)
Inductive signal_event : Type :=
| Act (e : @event handler)
| Interrupt.

Definition signal_step (a : @actor U handler) (e : signal_event) :
    option (@actor U handler) :=
  match e with
  | Act e => step a e
  | Interrupt => interrupt a
  end.

Fixpoint signal_steps (tr : list signal_event) (a : @actor U handler) :
    option (@actor U handler) :=
  match tr with
  | [] => Some a
  | e :: tr' =>
      match signal_step a e with
      | Some a' => signal_steps tr' a'
      | None => None
      end
  end.

Definition is_interrupt (e : signal_event) : bool :=
  match e with Interrupt => true | Act _ => false end.

(** A [sem_wait] of the run was interrupted. *)
Definition interrupted (tr : list signal_event) : bool :=
  existsb is_interrupt tr.

Definition signal_reachable (u0 : U) (a : @actor U handler) : Prop :=
  exists tr, signal_steps tr (init u0) = Some a.

(** Every message of the list is covered by the semaphore, by a post still
    to come, or by the worker that has left [sem_wait]. *)
Definition covered (a : @actor U handler) : Prop :=
  length (m_messages a) <=
    m_sem a + posting a + dtor_posting a + at_lock a.

Definition signal_inv (u0 : U) (a : @actor U handler) : Prop :=
  covered a /\ fifo_inv u0 a /\ loop_inv a /\ dtor_inv a.

(** Whatever has been enqueued gets executed, all of it, at some time. *)
Definition executes_all (a : @actor U handler) : Prop :=
  exists tr a', signal_steps tr a = Some a' /\ executed a' = enqueued a'.

End Signals.

(** A signal interrupts the [sem_wait] of an [integer] whose list is
    empty. *)
Definition interrupt_trace : list (@signal_event Z) :=
  [Act Run; Interrupt; Act Run].

Definition interrupt_state : integer :=
  mk_actor true 0 [] Aborted 0 Alive 0%Z [] [] None.

(** [set(5)] is called, a signal interrupts the [sem_wait] of the worker
    before the post, and the worker executes the message; [set(7)] is
    called. *)
Definition early_trace : list (@signal_event Z) :=
  [Act Run; Act (PutPush (Call 5%Z)); Interrupt; Act Run; Act Run; Act PutPost;
   Act Run; Act (PutPush (Call 7%Z)); Act PutPost].

Definition early_state : integer :=
  mk_actor true 2 [Call 7%Z] AtWait 0 Alive 5%Z
    [Call 5%Z; Call 7%Z] [Call 5%Z] None.

End Actor.

(** ** Reference-counted storage of a future *)

Module Result.

(** [SIZE_MAX]: [m_ref_count] is a [size_t], taken to be 64 bits wide (as
    wide as an object address), so it counts modulo [size_max + 1]. *)
Definition size_max : Z := 18446744073709551615.

Definition wrap (z : Z) : Z := z mod (size_max + 1).

(** What an operation on the storage does: it completes, it is not a call a
    program can make (a handle that is not alive or whose address is taken,
    no room for one more object), or it touches deleted storage. *)
Inductive outcome (A : Type) : Type :=
| Done (a : A)
| IllFormed
| UseAfterFree.
Arguments Done {A} a.
Arguments IllFormed {A}.
Arguments UseAfterFree {A}.

Definition bind {A B : Type} (o : outcome A) (f : A -> outcome B) : outcome B :=
  match o with
  | Done a => f a
  | IllFormed => IllFormed
  | UseAfterFree => UseAfterFree
  end.

Section Storage.
Context {R : Type}.

(** [result<R>::data] without its mutex and condition variable: every
    function below runs between [pthread_mutex_lock] and
    [pthread_mutex_unlock], so it is atomic. *)
Record data : Type := mk_data {
  m_ref_count : Z;
  m_value : R;
  m_value_set : bool;
}.

(** The [data] objects on the heap, by address, and the [result<R>] objects
    alive, each by its own address with the [m_data] pointer it holds. *)
Record store : Type := mk_store {
  cells : gmap nat data;
  handles : gmap nat nat;
}.

Definition empty : store := mk_store ∅ ∅.

(** The constructor of [data]. *)
Definition new_data (v : R) : data := mk_data 1 v false.

(** [data::inc_ref]. *)
Definition inc_ref (l : nat) (s : store) : outcome store :=
  match cells s !! l with
  | None => UseAfterFree
  | Some d =>
      Done (mk_store
              (<[l := mk_data (wrap (m_ref_count d + 1)) (m_value d) (m_value_set d)]>
                 (cells s))
              (handles s))
  end.

(** [data::dec_ref]: [--m_ref_count == 0] decides [delete this]. *)
Definition dec_ref (l : nat) (s : store) : outcome store :=
  match cells s !! l with
  | None => UseAfterFree
  | Some d =>
      let c := wrap (m_ref_count d - 1) in
      if (c =? 0)%Z then Done (mk_store (delete l (cells s)) (handles s))
      else Done (mk_store
                   (<[l := mk_data c (m_value d) (m_value_set d)]> (cells s))
                   (handles s))
  end.

(** [data::set] without the signal. *)
Definition data_set (v : R) (d : data) : data :=
  mk_data (m_ref_count d) v true.

Definition has_room (s : store) : bool :=
  (Z.of_nat (size (handles s)) <? size_max)%Z.

(** [result(const R &v)]: the object at address [h] gets a new [data]. *)
Definition construct (h : nat) (v : R) (s : store) : outcome store :=
  match handles s !! h with
  | Some _ => IllFormed
  | None =>
      if has_room s then
        let l := fresh (dom (cells s)) in
        Done (mk_store (<[l := new_data v]> (cells s)) (<[h := l]> (handles s)))
      else IllFormed
  end.

(** [result(const result<R> &r)]. *)
Definition copy (h r : nat) (s : store) : outcome store :=
  match handles s !! h, handles s !! r with
  | None, Some l =>
      if has_room s then inc_ref l (mk_store (cells s) (<[h := l]> (handles s)))
      else IllFormed
  | _, _ => IllFormed
  end.

(** [~result()]. *)
Definition destroy (h : nat) (s : store) : outcome store :=
  match handles s !! h with
  | None => IllFormed
  | Some l => dec_ref l (mk_store (cells s) (delete h (handles s)))
  end.

(** [operator = (const result<R> &r)]: [inc_ref] on the source first, then
    [dec_ref] on the target, then the pointer is overwritten. *)
Definition assign (h r : nat) (s : store) : outcome store :=
  match handles s !! h, handles s !! r with
  | Some lh, Some lr =>
      bind (inc_ref lr s) (fun s1 =>
      bind (dec_ref lh s1) (fun s2 =>
      Done (mk_store (cells s2) (<[h := lr]> (handles s2)))))
  | _, _ => IllFormed
  end.

(** [result::set], that is [m_data->set(v)]. *)
Definition set (h : nat) (v : R) (s : store) : outcome store :=
  match handles s !! h with
  | None => IllFormed
  | Some l =>
      match cells s !! l with
      | None => UseAfterFree
      | Some d => Done (mk_store (<[l := data_set v d]> (cells s)) (handles s))
      end
  end.

(** [result::get] on a value that is set: [None] when the caller has to
    wait. *)
Definition get (h : nat) (s : store) : outcome (option R) :=
  match handles s !! h with
  | None => IllFormed
  | Some l =>
      match cells s !! l with
      | None => UseAfterFree
      | Some d => Done (if m_value_set d then Some (m_value d) else None)
      end
  end.

Inductive op : Type :=
| Construct (h : nat) (v : R)
| Copy (h r : nat)
| Destroy (h : nat)
| Assign (h r : nat)
| SetValue (h : nat) (v : R).

Definition apply (o : op) (s : store) : outcome store :=
  match o with
  | Construct h v => construct h v s
  | Copy h r => copy h r s
  | Destroy h => destroy h s
  | Assign h r => assign h r s
  | SetValue h v => set h v s
  end.

Fixpoint apply_all (ops : list op) (s : store) : outcome store :=
  match ops with
  | [] => Done s
  | o :: ops' => bind (apply o s) (apply_all ops')
  end.

(** The number of live handles whose [m_data] is [l]. *)
Definition aliases (l : nat) (hs : gmap nat nat) : nat :=
  size (filter (fun hl => hl.2 = l) hs).

(** Every live handle points to live storage, and the count of every live
    storage is the number of live handles that point to it, which is not
    0. *)
Definition refcount_inv (s : store) : Prop :=
  (forall h l, handles s !! h = Some l -> is_Some (cells s !! l)) /\
  (forall l d, cells s !! l = Some d ->
     m_ref_count d = Z.of_nat (aliases l (handles s)) /\ 0 < aliases l (handles s)) /\
  (Z.of_nat (size (handles s)) <= size_max)%Z.

Definition counted (o : outcome store) : Prop :=
  match o with
  | Done s => refcount_inv s
  | IllFormed => True
  | UseAfterFree => False
  end.

End Storage.

(** Two handles, at addresses 1 and 2, of one future that is not set. *)
Definition two_handles : @store Z :=
  mk_store {[0 := mk_data 2 0%Z false]} {[1 := 0; 2 := 0]}.

Section Lifetime.
Context {R : Type}.

(** The stores a program can build. *)
Definition reachable (s : @store R) : Prop :=
  exists ops, apply_all ops empty = Done s.

(** One handle more on the storage [d]. *)
Definition count_up (d : @data R) : @data R :=
  mk_data (m_ref_count d + 1) (m_value d) (m_value_set d).

(** One handle fewer on the storage [d] at address [l]: it is deleted when
    that was its last handle. *)
Definition released (l : nat) (d : @data R) (c : gmap nat (@data R)) :
    gmap nat (@data R) :=
  if decide (m_ref_count d = 1%Z) then delete l c
  else <[l := mk_data (m_ref_count d - 1) (m_value d) (m_value_set d)]> c.

Definition is_set (o : @op R) : bool :=
  match o with SetValue _ _ => true | _ => false end.

(** The ways two threads can take turns on their operations. *)
Fixpoint interleave {A : Type} (l1 : list A) : list A -> list (list A) :=
  fix with_second (l2 : list A) : list (list A) :=
    match l1, l2 with
    | [], _ => [l2]
    | _, [] => [l1]
    | x :: l1', y :: l2' =>
        map (cons x) (interleave l1' l2) ++ map (cons y) (with_second l2')
    end.

(** What [put] does to the handles before the message is in the list
    (lines 187-188 of actorlib.hpp): the local [result<R> r] at address [r],
    then the member [m_result] of the new message, at address [m], copied
    from it. *)
Definition put_prepares (r m : nat) (v0 : R) : list (@op R) :=
  [Construct r v0; Copy m r].

(** The rest of [put] (line 189): [return r] copies [r] to the caller, at
    address [c], and the local is destroyed. *)
Definition put_returns (r c : nat) : list (@op R) :=
  [Copy c r; Destroy r].

(** The worker on the message (lines 60-61 of actorlib.cpp): [exec] stores
    the value [v] the member function returned through [m_result], and
    [delete msg] destroys [m_result]. *)
Definition worker_executes (m : nat) (v : R) : list (@op R) :=
  [SetValue m v; Destroy m].

End Lifetime.

(** A second future, with one handle at address 3, beside the two handles
    of the first. *)
Definition three_handles : @store Z :=
  mk_store {[0 := mk_data 2 0%Z false; 1 := mk_data 1 5%Z true]}
    {[1 := 0; 2 := 0; 3 := 1]}.

(** [two_handles] after [set(42)] through the handle at address 1. *)
Definition two_handles_set : @store Z :=
  mk_store {[0 := mk_data 2 42%Z true]} {[1 := 0; 2 := 0]}.

End Result.

(** ** Waiting for the value of a future *)

Module Future.

Section Protocol.
Context {R : Type}.

(** Where a thread is inside [data::get] (lines 131-137 of actorlib.hpp) or
    inside [data::set] (lines 140-146). *)
Inductive pc : Type :=
| GetLock                (* line 132: in pthread_mutex_lock *)
| GetTest                (* line 133: holds the mutex, tests m_value_set *)
| GetWait                (* line 133: blocked in pthread_cond_wait *)
| GetWoken               (* line 133: unblocked, pthread_cond_wait takes the mutex again *)
| GetRead                (* line 134: holds the mutex, R r = m_value *)
| GetUnlock (r : R)      (* line 135 *)
| GetDone (r : R)        (* line 136: get has returned r *)
| SetLock (v : R)        (* line 141 *)
| SetWrite (v : R)       (* lines 142-143 *)
| SetUnlock              (* line 144 *)
| SetSignal              (* line 145: pthread_cond_signal *)
| SetDone.               (* set has returned *)

(** One [result<R>::data] with its mutex (its owner, if any), its condition
    variable (the threads blocked on it) and the threads that use it. *)
Record future : Type := mk_future {
  cell : @Result.data R;
  m_mutex : option nat;
  m_cond : list nat;
  threads : gmap nat pc;
}.

(** The constructor of [data]: the value is the default, not set. *)
Definition init (v : R) : future :=
  mk_future (Result.new_data v) None [] ∅.

(** The atomic actions: thread [t] calls [get] or [set]; [t] takes the next
    step of its call; the [pthread_cond_signal] of [t] unblocks [w] (no
    thread when none is blocked); the blocked thread [w] wakes up without
    being signalled, which [pthread_cond_wait] is allowed to do. *)
Inductive event : Type :=
| CallGet (t : nat)
| CallSet (t : nat) (v : R)
| Step (t : nat)
| Signal (t : nat) (w : option nat)
| Spurious (w : nat).

Definition is_idle (p : option pc) : bool :=
  match p with
  | None | Some (GetDone _) | Some SetDone => true
  | _ => false
  end.

Definition is_blocked (p : option pc) : bool :=
  match p with Some GetWait => true | _ => false end.

(** The thread is suspended inside [pthread_cond_wait]. *)
Definition waiting (s : future) (t : nat) : bool :=
  match threads s !! t with
  | Some GetWait | Some GetWoken => true
  | _ => false
  end.

Definition set_pc (t : nat) (p : pc) (s : future) : future :=
  mk_future (cell s) (m_mutex s) (m_cond s) (<[t := p]> (threads s)).

Definition lock (t : nat) (p : pc) (s : future) : option future :=
  match m_mutex s with
  | None => Some (mk_future (cell s) (Some t) (m_cond s) (<[t := p]> (threads s)))
  | Some _ => None
  end.

Definition unlock (t : nat) (p : pc) (s : future) : future :=
  mk_future (cell s) None (m_cond s) (<[t := p]> (threads s)).

(** [pthread_cond_wait]: the mutex is released and the thread blocks. *)
Definition cond_wait (t : nat) (s : future) : future :=
  mk_future (cell s) None (m_cond s ++ [t]) (<[t := GetWait]> (threads s)).

(** The blocked thread [w] is unblocked. *)
Definition wake (w : nat) (s : future) : option future :=
  if bool_decide (w ∈ m_cond s) && is_blocked (threads s !! w) then
    Some (mk_future (cell s) (m_mutex s)
            (filter (fun u => u <> w) (m_cond s))
            (<[w := GetWoken]> (threads s)))
  else None.

Definition next (t : nat) (s : future) : option future :=
  match threads s !! t with
  | Some GetLock => lock t GetTest s
  | Some GetTest =>
      (* if (!m_value_set) pthread_cond_wait(&m_cond, &m_mutex); *)
      if Result.m_value_set (cell s) then Some (set_pc t GetRead s)
      else Some (cond_wait t s)
  | Some GetWoken => lock t GetRead s
  | Some GetRead => Some (set_pc t (GetUnlock (Result.m_value (cell s))) s)
  | Some (GetUnlock r) => Some (unlock t (GetDone r) s)
  | Some (SetLock v) => lock t (SetWrite v) s
  | Some (SetWrite v) =>
      Some (mk_future (Result.data_set v (cell s)) (m_mutex s) (m_cond s)
              (<[t := SetUnlock]> (threads s)))
  | Some SetUnlock => Some (unlock t SetSignal s)
  | Some GetWait | Some (GetDone _) | Some SetSignal | Some SetDone | None => None
  end.

Definition step (s : future) (e : event) : option future :=
  match e with
  | CallGet t =>
      if is_idle (threads s !! t) then Some (set_pc t GetLock s) else None
  | CallSet t v =>
      if is_idle (threads s !! t) then Some (set_pc t (SetLock v) s) else None
  | Step t => next t s
  | Signal t w =>
      match threads s !! t with
      | Some SetSignal =>
          match w, m_cond s with
          | None, [] => Some (set_pc t SetDone s)
          | None, _ :: _ => None
          | Some w, _ => wake w (set_pc t SetDone s)
          end
      | _ => None
      end
  | Spurious w => wake w s
  end.

Fixpoint steps (tr : list event) (s : future) : option future :=
  match tr with
  | [] => Some s
  | e :: tr' =>
      match step s e with
      | Some s' => steps tr' s'
      | None => None
      end
  end.

Definition is_spurious (e : event) : bool :=
  match e with Spurious _ => true | _ => false end.

(** A call of [get] by [t], alone from its call to its return when it does
    not have to wait. *)
Definition get_call (t : nat) : list event :=
  [CallGet t; Step t; Step t; Step t; Step t].

(** Only a thread that found the value set, or that was signalled after the
    value was set, is past the test of line 133. *)
Definition past_test (p : pc) : bool :=
  match p with
  | GetWoken | GetRead | GetUnlock _ | GetDone _ => true
  | _ => false
  end.

(** The value is set whenever some thread is past the test of line 133 or
    past the assignments of lines 142-143. *)
Definition after_write (p : pc) : bool :=
  match p with SetUnlock | SetSignal | SetDone => true | _ => false end.

Definition set_seen (s : future) : Prop :=
  forall u p, threads s !! u = Some p ->
    past_test p || after_write p = true ->
    Result.m_value_set (cell s) = true.

End Protocol.

(** [set(42)] has been called on a future of default 0 and has returned. *)
Definition set_42 : @future Z :=
  mk_future (Result.mk_data 1 42%Z true) None [] {[1 := SetDone]}.

Section Discipline.
Context {R : Type}.

(** The states of a future constructed with default [d]. *)
Definition reachable (d : R) (s : @future R) : Prop :=
  exists tr, steps tr (init d) = Some s.

(** The thread holds the mutex: it is between [pthread_mutex_lock] and
    [pthread_mutex_unlock], and not inside [pthread_cond_wait]. *)
Definition in_cs (p : @pc R) : bool :=
  match p with
  | GetTest | GetRead | GetUnlock _ | SetWrite _ | SetUnlock => true
  | _ => false
  end.

Definition cs_of (o : option (@pc R)) : bool :=
  match o with Some p => in_cs p | None => false end.

(** Among the threads in [get] and [set], the mutex is held by the one that
    is between lock and unlock, and by no other. *)
Definition lock_inv (s : @future R) : Prop :=
  forall t, m_mutex s = Some t <->
    exists p, threads s !! t = Some p /\ in_cs p = true.

(** The threads blocked on the condition variable are those inside
    [pthread_cond_wait] that have not been unblocked. *)
Definition wait_inv (s : @future R) : Prop :=
  forall t, t ∈ m_cond s <-> threads s !! t = Some GetWait.

(** A step of a call in progress: not a new call, not a spurious
    wake-up. *)
Definition is_progress (e : @event R) : bool :=
  match e with Step _ | Signal _ _ => true | _ => false end.

(** The values passed to [set] by the calls of a trace. *)
Definition set_values (tr : list (@event R)) : list R :=
  omap (fun e => match e with CallSet _ v => Some v | _ => None end) tr.

(** A call of [set(v)] by [t] whose signal unblocks [w], alone from its
    call to its return. *)
Definition set_call (t : nat) (v : R) (w : option nat) : list (@event R) :=
  [CallSet t v; Step t; Step t; Step t; Signal t w].

(** The values in flight come from [vals]: the value a thread read at
    line 134, the value a thread is about to store, and the stored value
    once it is set (at any time when [always] holds, for a list [vals] that
    contains the default). *)
Definition vals_inv (always : bool) (vals : list R) (s : @future R) : Prop :=
  (always || Result.m_value_set (cell s) = true ->
     Result.m_value (cell s) ∈ vals) /\
  (forall t p, threads s !! t = Some p ->
     match p with
     | GetUnlock r | GetDone r => r ∈ vals
     | SetLock v | SetWrite v => v ∈ vals
     | _ => True
     end).

(** Thread [u], unblocked, finishes its [get]. *)
Definition get_resume (u : nat) : list (@event R) := [Step u; Step u; Step u].

End Discipline.

(** A thread is blocked in [get] on a future of default 0. *)
Definition one_waiter : @future Z :=
  mk_future (Result.new_data 0%Z) None [1] {[1 := GetWait]}.

(** A thread has called [get] on a future of default 0 and is about to take
    the mutex. *)
Definition get_called : @future Z :=
  mk_future (Result.new_data 0%Z) None [] {[1 := GetLock]}.


(** [set(42)] has returned, then a second thread has called [get], which
    has returned 42. *)
Definition set_42_got : @future Z :=
  mk_future (Result.mk_data 1 42%Z true) None []
    (<[2 := GetDone 42%Z]> {[1 := SetDone]}).

(** A thread is in [get] on a future of default 0, holds the mutex and is
    about to test [m_value_set]. *)
Definition get_testing : @future Z :=
  mk_future (Result.new_data 0%Z) (Some 1) [] {[1 := GetTest]}.

End Future.

(** ** Enqueueing a call that returns a value *)

Module Enqueue.

(** The [integer] actor of [examples/pingpong/main.cpp] with the futures of
    its [get]: the member [m_value] and the storage of the [result<int>]
    objects. *)
Record memory : Type := mk_memory {
  m_value : Z;
  heap : @Result.store Z;
}.

(** The messages of [integer]. [BoundGet m] is the
    [object_message_0<integer, int>] for [&integer::_get] whose member
    [m_result] is the handle at address [m]; [BoundSet v] is the
    [object_message_1<integer, void, int>] for [&integer::_set] with [m_t1]
    equal to [v]. *)
Inductive bound_call : Type :=
| BoundGet (m : nat)
| BoundSet (v : Z).

(** [msg->exec(); delete msg;]. For [_get], [invoker<C, R>::exec] runs
    [r = (o->*f)()], which is [result::operator = (const R &)], that is
    [m_data->set(v)]; deleting the message destroys its [m_result]. *)
#[export] Instance integer_exec : Actor.Exec bound_call (Result.outcome memory) :=
  fun (c : bound_call) (u : Result.outcome memory) =>
  Result.bind u (fun mem =>
    match c with
    | BoundGet m =>
        Result.bind (Result.set m (m_value mem) (heap mem)) (fun h1 =>
        Result.bind (Result.destroy m h1) (fun h2 =>
        Result.Done (mk_memory (m_value mem) h2)))
    | BoundSet v => Result.Done (mk_memory v (heap mem))
    end).

Definition integer : Type := @Actor.actor (Result.outcome memory) bound_call.

(** The actions of the worker and of the callers of [put] on the mailbox,
    and those of the calling thread on its handles. *)
Inductive event : Type :=
| Mailbox (e : @Actor.event bound_call)
| Caller (o : @Result.op Z).

Definition step (a : integer) (e : event) : option integer :=
  match e with
  | Mailbox e => Actor.step a e
  | Caller o =>
      match Actor.derived a with
      | Result.Done mem =>
          match Result.apply o (heap mem) with
          | Result.Done h => Some (Actor.set_derived (Result.Done (mk_memory (m_value mem) h)) a)
          | _ => None
          end
      | _ => None
      end
  end.

Fixpoint steps (tr : list event) (a : integer) : option integer :=
  match tr with
  | [] => Some a
  | e :: tr' =>
      match step a e with
      | Some a' => steps tr' a'
      | None => None
      end
  end.

(** [integer::get()], that is [put(&integer::_get)], lines 186-190 of
    actorlib.hpp: the local [r] at address [r], the [m_result] of the new
    message at address [m], the returned handle at address [c]. *)
Definition put_get (r m c : nat) : list event :=
  [Caller (Result.Construct r 0%Z);            (* result<R> r; *)
   Caller (Result.Copy m r);                   (* new object_message_0<C, R>(.., r, f) *)
   Mailbox (Actor.PutPush (Actor.Call (BoundGet m)));
   Mailbox Actor.PutPost;                      (* put(msg) *)
   Caller (Result.Copy c r);                   (* return r; *)
   Caller (Result.Destroy r)].

(** An [integer] of value [x] that has just been constructed. *)
Definition init (x : Z) : integer :=
  Actor.init (Result.Done (mk_memory x Result.empty)).

(** What [get()] on the handle at address [c] finds. *)
Definition get (c : nat) (a : integer) : Result.outcome (option Z) :=
  Result.bind (Actor.derived a) (fun mem => Result.get c (heap mem)).

(** [integer::set(v)], that is [put(&integer::_set, v)], lines 196-200 of
    actorlib.hpp: [result<void>] has no storage, so nothing is left to the
    caller. *)
Definition put_set (v : Z) : list event :=
  [Mailbox (Actor.PutPush (Actor.Call (BoundSet v))); Mailbox Actor.PutPost].

(** Calls of [set], one after the other. *)
Definition put_sets (vs : list Z) : list event := vs ≫= put_set.

Definition set_messages (vs : list Z) : list (@Actor.message bound_call) :=
  map (fun v => Actor.Call (BoundSet v)) vs.

(** The member [m_value] of the integer. *)
Definition value (a : integer) : Result.outcome Z :=
  Result.bind (Actor.derived a) (fun mem => Result.Done (m_value mem)).

(** The storage after [put_get 1 2 3]: one future, not set, held by the
    message and by the caller. *)
Definition pending : @Result.store Z :=
  Result.mk_store {[0 := Result.mk_data 2 0%Z false]} (<[3 := 0]> {[2 := 0]}).

(** The storage once the message of [put_get 1 2 3] has stored [v] and has
    been deleted. *)
Definition fulfilled (v : Z) : @Result.store Z :=
  Result.mk_store {[0 := Result.mk_data 1 v true]} {[3 := 0]}.

End Enqueue.

(** ** The overloads of put and of invoker::exec *)

Module Arity.

(** The return type [R] of a member function: [void], or a type of
    values. *)
Inductive ret : Type :=
| Void
| Value.

Definition ret_eqb (r1 r2 : ret) : bool :=
  match r1, r2 with
  | Void, Void | Value, Value => true
  | _, _ => false
  end.

(** An overload of [invoker<C, R>::exec]: the number of [const T &]
    parameters of its member function, the [X] of its first parameter
    [result<X> &r], and the return type of its member function. [Value]
    stands for the template parameter [R]. *)
Record signature : Type := mk_signature {
  params : nat;
  result_of : ret;
  returns : ret;
}.

(** The primary template [invoker<C, R>], lines 222-305 of actorlib.hpp:
    the overloads for 0 and 1 parameters take [result<R> &] and a member
    function that returns [R], those for 2 to 9 parameters take
    [result<void> &] and a member function that returns [void]. *)
Definition invoker_primary : list signature :=
  [mk_signature 0 Value Value; mk_signature 1 Value Value;
   mk_signature 2 Void Void; mk_signature 3 Void Void;
   mk_signature 4 Void Void; mk_signature 5 Void Void;
   mk_signature 6 Void Void; mk_signature 7 Void Void;
   mk_signature 8 Void Void; mk_signature 9 Void Void].

(** The specialization [invoker<C, void>], lines 308-391. *)
Definition invoker_void : list signature :=
  map (fun n => mk_signature n Void Void) (seq 0 10).

(** [invoker<C, R>] is the specialization when [R] is [void]. *)
Definition invoker (R : ret) : list signature :=
  match R with
  | Void => invoker_void
  | Value => invoker_primary
  end.

(** [object_message_n<C, R, ..>::exec] calls [invoker<C, R>::exec] with
    [m_result], a [result<R>] that binds to [result<X> &] only when [X] is
    [R], with [m_function], a member function that returns [R], and with [n]
    arguments. *)
Definition viable (R : ret) (n : nat) (g : signature) : bool :=
  (params g =? n) && ret_eqb (result_of g) R && ret_eqb (returns g) R.

Definition exec_compiles (R : ret) (n : nat) : bool :=
  existsb (viable R n) (invoker R).

(** [object_message_0] to [object_message_9], lines 418-695. *)
Definition object_messages : list nat := seq 0 10.

(** The overloads of the protected [actor::put], lines 186-211, by the
    number of arguments of the member function. *)
Definition put_overloads : list nat := [0; 1; 2].

(** A derived class can enqueue a member function of [n] parameters that
    returns [R]: an overload of [put] takes it, the message class exists and
    its [exec] compiles. *)
Definition put_compiles (R : ret) (n : nat) : bool :=
  existsb (Nat.eqb n) put_overloads &&
  existsb (Nat.eqb n) object_messages &&
  exec_compiles R n.

End Arity.

(** ** The ping-pong program of the example *)

Module PingPong.
Import String.StringSyntax.
Local Delimit Scope string_scope with string.

(** The two players: the actors [ping_] and [pong_] of
    [examples/pingpong/main.cpp]. *)
Inductive side : Type := Ping | Pong.

Definition other (s : side) : side :=
  match s with Ping => Pong | Pong => Ping end.

Definition side_eqb (s1 s2 : side) : bool :=
  match s1, s2 with
  | Ping, Ping | Pong, Pong => true
  | _, _ => false
  end.

Definition newline : String.string :=
  String.String (Ascii.ascii_of_nat 10) String.EmptyString.

(** [stream << v] for an [int]. *)
Definition show (v : Z) : String.string :=
  DecimalString.NilZero.string_of_int (Z.to_int v).

(** [_do_ping] writes "pong" (line 113) and [_do_pong] writes "ping"
    (line 126). *)
Definition word (s : side) : String.string :=
  match s with Ping => "pong"%string | Pong => "ping"%string end.

(** [stream << v << ": pong\n"], lines 112-113 and 125-126. *)
Definition line (v : Z) (s : side) : String.string :=
  String.append (show v)
    (String.append ": "%string (String.append (word s) newline)).

(** Line 143. *)
Definition banner : String.string :=
  String.append "press any key to exit..."%string newline.

(** The messages of the [integer] actor [value]: [_get] with the future of
    the player that asked, and [_set] with its argument. *)
Inductive integer_message : Type :=
| GetFor (s : side)
| SetTo (v : Z).

(** Where the worker thread of a player is: in the loop of [actor::run]
    with no message taken, or inside [_do_ping] (lines 109-118; [_do_pong],
    lines 122-131, is the same with the roles exchanged). *)
Inductive handler_pc : Type :=
| Idle
| Called             (* line 110: about to call m_value->get() *)
| Waiting            (* line 110: in result::get of the returned future *)
| Test (v : Z)       (* lines 111-114: if (v > 0), print *)
| Store (v : Z)      (* line 115: m_value->set(v - 1) *)
| Pass.              (* line 116: m_pong->do_pong() *)

(** A player: the [do_ping] messages of its list, its worker thread, and
    the future of its call of [get] ([None] while the value is not set). *)
Record player : Type := mk_player {
  queue : nat;
  pc : handler_pc;
  answer : option Z;
}.

(** [main], lines 142-147. *)
Inductive main_pc : Type :=
| MainBanner         (* line 143 *)
| MainCall           (* line 144: pong_.do_pong() *)
| MainKey.           (* line 145: in getchar() *)

(** The program: what has been written to [cout], the thread of [main],
    the strings in the list of [console_], the member [m_value] and the
    list of [value], and the two players. Every list of messages is served
    in order by the worker of its actor, and [put] appends to it. *)
Record world : Type := mk_world {
  out : list String.string;
  main : main_pc;
  console_q : list String.string;
  m_value : Z;
  value_q : list integer_message;
  ping : player;
  pong : player;
}.

(** The objects of lines 135-139, and [main] not yet started. [n] is the
    argument of the constructor of [value], 100 in the example. *)
Definition init (n : Z) : world :=
  mk_world [] MainBanner [] n [] (mk_player 0 Idle None) (mk_player 0 Idle None).

Definition player_of (s : side) (w : world) : player :=
  match s with Ping => ping w | Pong => pong w end.

Definition set_player (s : side) (p : player) (w : world) : world :=
  match s with
  | Ping => mk_world (out w) (main w) (console_q w) (m_value w) (value_q w) p (pong w)
  | Pong => mk_world (out w) (main w) (console_q w) (m_value w) (value_q w) (ping w) p
  end.

Definition write (l : String.string) (w : world) : world :=
  mk_world (out w ++ [l]) (main w) (console_q w) (m_value w) (value_q w)
    (ping w) (pong w).

Definition set_main (m : main_pc) (w : world) : world :=
  mk_world (out w) m (console_q w) (m_value w) (value_q w) (ping w) (pong w).

Definition set_console_q (q : list String.string) (w : world) : world :=
  mk_world (out w) (main w) q (m_value w) (value_q w) (ping w) (pong w).

Definition set_value (v : Z) (q : list integer_message) (w : world) : world :=
  mk_world (out w) (main w) (console_q w) v q (ping w) (pong w).

(** [do_ping()] or [do_pong()] called on player [s]: [put] appends the
    message. *)
Definition put_do (s : side) (w : world) : world :=
  let p := player_of s w in
  set_player s (mk_player (S (queue p)) (pc p) (answer p)) w.

(** The threads of the program. *)
Inductive thread : Type :=
| Main
| Console
| Value
| Player (s : side).

(** One step of a thread; [None] when the thread is blocked: [main] in
    [getchar], a worker in [sem_wait] on an empty list, a player in
    [result::get] while the value is not set (no wake-up is spurious). *)
Definition step (w : world) (t : thread) : option world :=
  match t with
  | Main =>
      match main w with
      | MainBanner => Some (set_main MainCall (write banner w))
      | MainCall => Some (set_main MainKey (put_do Pong w))
      | MainKey => None
      end
  | Console =>
      (* console::_print, line 21 *)
      match console_q w with
      | [] => None
      | l :: q => Some (write l (set_console_q q w))
      end
  | Value =>
      match value_q w with
      | [] => None
      | GetFor s :: q =>
          (* integer::_get, line 49; invoker::exec stores it in the future *)
          let p := player_of s w in
          Some (set_player s (mk_player (queue p) (pc p) (Some (m_value w)))
                  (set_value (m_value w) q w))
      | SetTo v :: q =>
          (* integer::_set, line 54 *)
          Some (set_value v q w)
      end
  | Player s =>
      let p := player_of s w in
      match pc p with
      | Idle =>
          match queue p with
          | 0 => None
          | S k => Some (set_player s (mk_player k Called (answer p)) w)
          end
      | Called =>
          (* integer::get, line 35: a new future, and [_get] enqueued *)
          Some (set_player s (mk_player (queue p) Waiting None)
                  (set_value (m_value w) (value_q w ++ [GetFor s]) w))
      | Waiting =>
          match answer p with
          | None => None
          | Some v => Some (set_player s (mk_player (queue p) (Test v) (answer p)) w)
          end
      | Test v =>
          if (0 <? v)%Z then
            (* console::print, line 15 *)
            Some (set_player s (mk_player (queue p) (Store v) (answer p))
                    (set_console_q (console_q w ++ [line v s]) w))
          else Some (set_player s (mk_player (queue p) Idle (answer p)) w)
      | Store v =>
          (* integer::set, line 40 *)
          Some (set_player s (mk_player (queue p) Pass (answer p))
                  (set_value (m_value w) (value_q w ++ [SetTo (v - 1)]) w))
      | Pass =>
          Some (put_do (other s)
                  (set_player s (mk_player (queue p) Idle (answer p)) w))
      end
  end.

(** A schedule: the threads in the order in which they take their steps. *)
Fixpoint steps (tr : list thread) (w : world) : option world :=
  match tr with
  | [] => Some w
  | t :: tr' =>
      match step w t with
      | Some w' => steps tr' w'
      | None => None
      end
  end.

(** The lines of the count-down from [n]: [n: ping], [n-1: pong], ...,
    down to 1. *)
Definition countdown (n : Z) : list String.string :=
  map (fun i => line (n - Z.of_nat i) (if Nat.even i then Pong else Ping))
    (seq 0 (Z.to_nat n)).

(** The number of steps of the program, all threads together. *)
Definition total_steps (n : Z) : nat := 9 * Z.to_nat n + 7.

(** *** The states the program goes through

    Once [main] has written the banner, one message travels between the
    players. [stage] tells where it is; [p] is the argument of a [_set]
    that [value] has not executed yet. *)
Inductive stage : Type :=
| AtCall
| Queued (s : side) (p : option Z)
| Entered (s : side) (p : option Z)
| Asked (s : side) (p : option Z)
| Answered (s : side)
| Tested (s : side)
| Printed (s : side)
| Stored (s : side) (p : option Z)
| Finished.

Record summary : Type := mk_summary {
  s_out : list String.string;
  s_console : list String.string;
  s_value : Z;
  s_stage : stage;
  s_ping : option Z;
  s_pong : option Z;
}.

Definition pending (p : option Z) : list integer_message :=
  match p with Some x => [SetTo x] | None => [] end.

Definition old_answer (s : side) (a : summary) : option Z :=
  match s with Ping => s_ping a | Pong => s_pong a end.

Definition summary_player (s0 : side) (a : summary) : player :=
  let idle := mk_player 0 Idle (old_answer s0 a) in
  let at_pc (s : side) (p : player) := if side_eqb s s0 then p else idle in
  match s_stage a with
  | AtCall | Finished => idle
  | Queued s _ => at_pc s (mk_player 1 Idle (old_answer s0 a))
  | Entered s _ => at_pc s (mk_player 0 Called (old_answer s0 a))
  | Asked s _ => at_pc s (mk_player 0 Waiting None)
  | Answered s => at_pc s (mk_player 0 Waiting (Some (s_value a)))
  | Tested s => at_pc s (mk_player 0 (Test (s_value a)) (old_answer s0 a))
  | Printed s => at_pc s (mk_player 0 (Store (s_value a)) (old_answer s0 a))
  | Stored s _ => at_pc s (mk_player 0 Pass (old_answer s0 a))
  end.

(** The state of the program that a summary stands for. *)
Definition world_of (a : summary) : world :=
  mk_world (s_out a)
    (match s_stage a with
     | AtCall => MainCall
     | _ => MainKey
     end)
    (s_console a) (s_value a)
    (match s_stage a with
     | Queued _ p | Entered _ p | Stored _ p => pending p
     | Asked s p => pending p ++ [GetFor s]
     | _ => []
     end)
    (summary_player Ping a) (summary_player Pong a).

Definition set_stage (st : stage) (a : summary) : summary :=
  mk_summary (s_out a) (s_console a) (s_value a) st (s_ping a) (s_pong a).

(** [value] executes the pending [_set]. *)
Definition stored (x : Z) (st : stage) (a : summary) : summary :=
  mk_summary (s_out a) (s_console a) x st (s_ping a) (s_pong a).

Definition keep_answer (s : side) (a : summary) : summary :=
  match s with
  | Ping => mk_summary (s_out a) (s_console a) (s_value a) (s_stage a)
              (Some (s_value a)) (s_pong a)
  | Pong => mk_summary (s_out a) (s_console a) (s_value a) (s_stage a)
              (s_ping a) (Some (s_value a))
  end.

(** The step of thread [t] on summaries. *)
Definition summary_step (a : summary) (t : thread) : option summary :=
  match t with
  | Main =>
      match s_stage a with
      | AtCall => Some (set_stage (Queued Pong None) a)
      | _ => None
      end
  | Console =>
      match s_console a with
      | [] => None
      | l :: q =>
          Some (mk_summary (s_out a ++ [l]) q (s_value a) (s_stage a)
                  (s_ping a) (s_pong a))
      end
  | Value =>
      match s_stage a with
      | Queued s (Some x) => Some (stored x (Queued s None) a)
      | Entered s (Some x) => Some (stored x (Entered s None) a)
      | Stored s (Some x) => Some (stored x (Stored s None) a)
      | Asked s (Some x) => Some (stored x (Asked s None) a)
      | Asked s None => Some (set_stage (Answered s) a)
      | _ => None
      end
  | Player s0 =>
      match s_stage a with
      | Queued s p =>
          if side_eqb s s0 then Some (set_stage (Entered s p) a) else None
      | Entered s p =>
          if side_eqb s s0 then Some (set_stage (Asked s p) a) else None
      | Answered s =>
          if side_eqb s s0 then Some (set_stage (Tested s) (keep_answer s a))
          else None
      | Tested s =>
          if side_eqb s s0 then
            if (0 <? s_value a)%Z then
              Some (mk_summary (s_out a) (s_console a ++ [line (s_value a) s])
                      (s_value a) (Printed s) (s_ping a) (s_pong a))
            else Some (set_stage Finished a)
          else None
      | Printed s =>
          if side_eqb s s0 then
            Some (set_stage (Stored s (Some (s_value a - 1)%Z)) a)
          else None
      | Stored s p =>
          if side_eqb s s0 then Some (set_stage (Queued (other s) p) a) else None
      | _ => None
      end
  end.

(** The lines still to come when player [s] finds the value [v]. *)
Fixpoint remaining_lines (k : nat) (s : side) (v : Z) : list String.string :=
  match k with
  | 0 => []
  | S k' => line v s :: remaining_lines k' (other s) (v - 1)
  end.

Definition remaining (s : side) (v : Z) : list String.string :=
  remaining_lines (Z.to_nat v) s v.

(** The lines that are neither written nor in the list of [console_]. *)
Definition todo (a : summary) : list String.string :=
  match s_stage a with
  | AtCall => remaining Pong (s_value a)
  | Queued s p | Entered s p | Asked s p => remaining s (default (s_value a) p)
  | Answered s | Tested s => remaining s (s_value a)
  | Printed s => remaining (other s) (s_value a - 1)
  | Stored s p => remaining (other s) (default (s_value a) p)
  | Finished => []
  end.

Definition all_lines (a : summary) : list String.string :=
  s_out a ++ s_console a ++ todo a.

Definition pending_steps (p : option Z) : nat :=
  match p with Some _ => 1 | None => 0 end.

(** The number of steps still to be taken. *)
Definition steps_left (a : summary) : nat :=
  length (s_console a) +
  match s_stage a with
  | AtCall => 9 * Z.to_nat (s_value a) + 6
  | Queued _ p => 9 * Z.to_nat (default (s_value a) p) + 5 + pending_steps p
  | Entered _ p => 9 * Z.to_nat (default (s_value a) p) + 4 + pending_steps p
  | Asked _ p => 9 * Z.to_nat (default (s_value a) p) + 3 + pending_steps p
  | Answered _ => 9 * Z.to_nat (s_value a) + 2
  | Tested _ => 9 * Z.to_nat (s_value a) + 1
  | Printed _ => 9 * Z.to_nat (s_value a - 1) + 8
  | Stored _ p => 9 * Z.to_nat (default (s_value a) p) + 6 + pending_steps p
  | Finished => 0
  end.

(** The program when [main] has written the banner. *)
Definition summary_init (n : Z) : summary :=
  mk_summary [banner] [] n AtCall None None.

(** The program for [value(1)] after a whole run. *)
Definition one_round : list thread :=
  [Main; Main; Player Pong; Player Pong; Value; Player Pong; Player Pong;
   Console; Player Pong; Player Pong; Value; Player Ping; Player Ping; Value;
   Player Ping; Player Ping].

Definition one_round_done : world :=
  mk_world [banner; line 1 Pong] MainKey [] 0%Z []
    (mk_player 0 Idle (Some 0%Z)) (mk_player 0 Idle (Some 1%Z)).

End PingPong.

(** * Properties *)

(** ** The mailbox and the worker loop *)

Module ActorFacts.
Import Actor.

Section Mailbox.
Context {U handler : Type} `{!Exec handler U}.
Local Abbreviation message := (@Actor.message handler) (only parsing).
Local Abbreviation actor := (@Actor.actor U handler) (only parsing).
Local Abbreviation event := (@Actor.event handler) (only parsing).

(** *** Invariants of the mailbox *)

Ltac step_cases H :=
  match type of H with
  | step ?a ?e = Some _ =>
      destruct e; cbn [step] in H; unfold run_step, destroy in H;
      repeat match type of H with
             | context [match ?x with _ => _ end] => destruct x eqn:?
             end;
      simplify_eq
  end.

Ltac use_pcs :=
  repeat match goal with
         | H : worker _ = _ |- _ => rewrite H in *; clear H
         | H : dtor _ = _ |- _ => rewrite H in *; clear H
         | H : m_messages _ = _ |- _ => rewrite H in *; clear H
         | H : m_loop _ = _ |- _ => rewrite H in *; clear H
         | H : m_sem _ = _ |- _ => rewrite H in *; clear H
         | H : posting _ = _ |- _ => rewrite H in *; clear H
         end.

Lemma has_exit_app (l1 l2 : list message) :
  has_exit (l1 ++ l2) = has_exit l1 || has_exit l2.
Proof. apply existsb_app. Qed.

Lemma replay_app (l1 l2 : list message) (u : U) :
  replay (l1 ++ l2) u = replay l2 (replay l1 u).
Proof. apply fold_left_app. Qed.

Lemma sem_inv_step (a a' : actor) (e : event) :
  sem_inv a -> step a e = Some a' -> sem_inv a'.
Proof.
  intros [Hs Ha] He. step_cases He;
    unfold sem_inv, at_lock, dtor_posting in *; cbn in *; use_pcs;
    cbn in *; rewrite ?length_app in *; cbn in *;
    (split; [lia | first [done | lia]]).
Qed.

Lemma fifo_inv_step (u0 : U) (a a' : actor) (e : event) :
  fifo_inv u0 a -> step a e = Some a' -> fifo_inv u0 a'.
Proof.
  intros [Hq Hd] He. step_cases He;
    unfold fifo_inv, in_flight in *; cbn in *; use_pcs;
    cbn in *; rewrite ?Hq, ?Hd, ?replay_app, <- ?app_assoc; cbn; try done.
  all: destruct msg; (split; [done|]); symmetry;
    match goal with
    | |- fold_left _ (_ ++ [?m]) _ = _ => apply (replay_app (executed a) [m] u0)
    end.
Qed.

Lemma loop_inv_step (a a' : actor) (e : event) :
  loop_inv a -> step a e = Some a' -> loop_inv a'.
Proof.
  intros [Ht Hf] He. step_cases He;
    unfold loop_inv in *; cbn in *;
    repeat match goal with H : worker _ = _ |- _ => rewrite H in * end;
    try (split; [intros Hl; destruct (Ht Hl); split; [done | congruence]
                |intros Hl; destruct (Hf Hl) as [? [?|?]]; split; eauto; congruence]).
  - (* the loop test succeeds *)
    split; [intros _; destruct (Ht eq_refl); split; [done | congruence]
           |congruence].
  - (* the loop test fails *)
    split; [congruence | intros _; destruct (Hf eq_refl) as [? _]; split; eauto].
  - (* a message is executed *)
    destruct (m_loop a) eqn:Hl.
    + destruct (Ht eq_refl) as [Hx _]. destruct msg; cbn.
      * split; [congruence | intros _; split; eauto].
      * split; [intros _ | congruence].
        fold (has_exit (executed a ++ [Call h])).
        rewrite has_exit_app, Hx. cbn. split; [done | congruence].
    + destruct (Hf eq_refl) as [_ [?|?]]; congruence.
Qed.

Lemma dtor_inv_step (a a' : actor) (e : event) :
  dtor_inv a -> step a e = Some a' -> dtor_inv a'.
Proof.
  intros Hd He. step_cases He;
    unfold dtor_inv in *; cbn in *;
    repeat match goal with H : dtor _ = _ |- _ => rewrite H in * end;
    repeat match goal with H : worker _ = _ |- _ => rewrite H in * end;
    try done.
  all: try (destruct Hd as (n & ? & Hn); exists n; split; [done|];
            by apply lookup_app_l_Some).
  all: try (destruct (dtor a); try done; by destruct Hd).
  exists (length (enqueued a)). split; [done|].
  rewrite lookup_app_r by lia. by rewrite Nat.sub_diag.
Qed.

Lemma through_exit_app (l1 l2 : list message) :
  has_exit l1 = false -> through_exit (l1 ++ l2) = l1 ++ through_exit l2.
Proof.
  induction l1 as [|[|h] l1 IH]; cbn; intros Hx; [done | done |].
  by rewrite IH.
Qed.

Lemma through_exit_no_exit (l : list message) :
  has_exit l = false -> through_exit l = l.
Proof.
  intros Hx. rewrite <- (app_nil_r l) at 1.
  rewrite through_exit_app by done. cbn. apply app_nil_r.
Qed.

Lemma through_exit_first (pre l : list message) :
  has_exit pre = false -> through_exit (pre ++ Exit :: l) = pre ++ [Exit].
Proof. intros Hx. by rewrite through_exit_app. Qed.

Lemma run_alone_stuck (fuel : nat) (a : actor) :
  run_step a = None -> run_alone fuel a = a.
Proof. intros Hw. destruct fuel; cbn; [done | by rewrite Hw]. Qed.

Lemma run_alone_iteration (fuel sm : nat) (msg : message) (rest : list message)
    (p : nat) (d : dtor_pc) (dv : U) (enq exd : list message) (rq : option nat) :
  run_alone (S (S (S (S fuel))))
    (mk_actor true (S sm) (msg :: rest) AtLoop p d dv enq exd rq) =
  run_alone fuel
    (exec msg (mk_actor true sm rest AtLoop p d dv enq exd rq)).
Proof. reflexivity. Qed.

Lemma run_alone_loop (msgs : list message) :
  forall (a : actor) (fuel : nat),
    worker a = AtLoop -> m_loop a = true -> m_messages a = msgs ->
    m_sem a = length msgs -> 4 * length msgs + 1 <= fuel ->
    executed (run_alone fuel a) = executed a ++ through_exit msgs /\
    worker (run_alone fuel a) = (if has_exit msgs then Returned else AtWait).
Proof.
  induction msgs as [|msg rest IH]; intros [] fuel Hw Hl Hm Hs Hf;
    simpl in Hw, Hl, Hm, Hs; subst.
  - destruct fuel as [|fuel]; [simpl in Hf; lia|].
    change (run_alone (S fuel) _) with
      (run_alone fuel (mk_actor true 0 [] AtWait posting0 dtor0 derived0
                          enqueued0 executed0 requested0)).
    rewrite run_alone_stuck by done. simpl. by rewrite app_nil_r.
  - simpl length in Hf.
    do 4 (destruct fuel as [|fuel]; [lia|]).
    rewrite run_alone_iteration.
    destruct msg as [|h].
    + destruct fuel as [|fuel]; [lia|].
      change (run_alone (S fuel) _) with
        (run_alone fuel (mk_actor false (length rest) rest Returned posting0
                            dtor0 derived0 enqueued0 (executed0 ++ [Exit])
                            requested0)).
      by rewrite run_alone_stuck.
    + edestruct (IH (exec (Call h)
                       (mk_actor true (length rest) rest AtLoop posting0 dtor0
                          derived0 enqueued0 executed0 requested0)) fuel)
        as [He Hp]; [done..| lia |].
      rewrite He, Hp. simpl. by rewrite <- app_assoc.
Qed.




Lemma run_alone_run (fuel : nat) (a : actor) :
  exists n, steps (replicate n Run) a = Some (run_alone fuel a).
Proof.
  revert a. induction fuel as [|fuel IH]; intros a; simpl.
  - by exists 0.
  - destruct (run_step a) as [a'|] eqn:Hw.
    + destruct (IH a') as [n Hn]. exists (S n). simpl. by rewrite Hw.
    + by exists 0.
Qed.

Lemma inv_init (u0 : U) : inv u0 (init u0).
Proof.
  unfold inv, sem_inv, fifo_inv, loop_inv, dtor_inv. cbn. naive_solver.
Qed.

Lemma inv_step (u0 : U) (a a' : actor) (e : event) :
  inv u0 a -> step a e = Some a' -> inv u0 a'.
Proof.
  intros (? & ? & ? & ?) He. unfold inv.
  split; [|split; [|split]].
  - eapply sem_inv_step; eassumption.
  - eapply fifo_inv_step; eassumption.
  - eapply loop_inv_step; eassumption.
  - eapply dtor_inv_step; eassumption.
Qed.

Lemma inv_steps (u0 : U) (tr : list event) (a a' : actor) :
  inv u0 a -> steps tr a = Some a' -> inv u0 a'.
Proof.
  revert a. induction tr as [|e tr IH]; cbn; intros a Ha Hr.
  - by simplify_eq.
  - destruct (step a e) as [a1|] eqn:He; [|done]. eauto using inv_step.
Qed.

Lemma inv_reachable (u0 : U) (a : actor) : reachable u0 a -> inv u0 a.
Proof. intros [tr Hr]. eapply inv_steps; [apply inv_init | done]. Qed.

Lemma steps_app (tr1 tr2 : list event) (a : actor) :
  steps (tr1 ++ tr2) a = steps tr1 a ≫= steps tr2.
Proof.
  revert a. induction tr1 as [|e tr1 IH]; cbn; intros a; [done|].
  destruct (step a e); cbn; [apply IH | done].
Qed.

Lemma reachable_steps (u0 : U) (tr : list event) (a a' : actor) :
  reachable u0 a -> steps tr a = Some a' -> reachable u0 a'.
Proof.
  intros [tr0 H0] Hr. exists (tr0 ++ tr). by rewrite steps_app, H0.
Qed.

Lemma no_exit_lookup (l : list message) (i : nat) :
  has_exit l = false -> l !! i <> Some Exit.
Proof.
  intros Hx Hi. apply not_true_iff_false in Hx. apply Hx.
  apply existsb_exists. exists Exit. split; [|done].
  apply list_elem_of_In, list_elem_of_lookup. eauto.
Qed.

Lemma first_exit_position (pre l : list message) (n : nat) :
  has_exit pre = false ->
  (pre ++ Exit :: l) !! n = Some Exit ->
  has_exit (take n (pre ++ Exit :: l)) = false ->
  n = length pre.
Proof.
  intros Hpre Hn Htake.
  destruct (Nat.lt_trichotomy n (length pre)) as [Hlt | [Heq | Hgt]]; [|done|].
  - rewrite lookup_app_l in Hn by done. by apply no_exit_lookup in Hn.
  - exfalso. eapply (no_exit_lookup _ (length pre)); [exact Htake|].
    rewrite lookup_take_lt by done.
    rewrite lookup_app_r by lia. by rewrite Nat.sub_diag.
Qed.

Lemma returned_step (a a' : actor) (e : event) :
  worker a = Returned -> step a e = Some a' ->
  worker a' = Returned /\ executed a' = executed a.
Proof.
  intros Hw He. step_cases He; cbn; try done; congruence.
Qed.

Lemma returned_steps (tr : list event) (a a' : actor) :
  worker a = Returned -> steps tr a = Some a' ->
  worker a' = Returned /\ executed a' = executed a.
Proof.
  revert a. induction tr as [|e tr IH]; simpl; intros a Hw Hr.
  - by simplify_eq.
  - destruct (step a e) as [a1|] eqn:He; [|done].
    destruct (returned_step _ _ _ Hw He) as [Hw1 <-]. by apply IH.
Qed.

Lemma executed_prefix (u0 : U) (a : actor) :
  inv u0 a -> (executed a ++ in_flight a) `prefix_of` through_exit (enqueued a).
Proof.
  intros (_ & [Hq _] & [Ht Hf] & _). rewrite Hq.
  destruct (m_loop a).
  - destruct (Ht eq_refl) as [Hx _].
    rewrite through_exit_app by done. apply prefix_app.
    unfold in_flight. destruct (worker a) as [| | |[|h]| |]; simpl;
      first [apply prefix_nil | apply prefix_cons, prefix_nil].
  - destruct (Hf eq_refl) as [(pre & Hp & Hx) Hw].
    assert (in_flight a = []) as -> by (unfold in_flight; by destruct Hw as [-> | ->]).
    rewrite Hp, app_nil_r. simpl. rewrite <- (app_assoc pre). simpl.
    by rewrite through_exit_first.
Qed.

(** *** The claims on the mailbox *)

(** C9: as long as the actor exists [put] accepts any message, whatever was
    enqueued before; what the worker has executed or is executing is a
    prefix of the queue up to its first sentinel, so no message behind the
    sentinel is ever executed; the worker returns right after executing the
    sentinel, leaving the list as it is; and once it has returned nothing is
    executed any more. *)
Theorem queued_behind_exit_never_runs (u0 : U) (a : actor) :
  reachable u0 a ->
  (forall msg, dtor a <> Destroyed ->
     exists a', step a (PutPush msg) = Some a' /\
       m_messages a' = m_messages a ++ [msg] /\ reachable u0 a') /\
  (executed a ++ in_flight a) `prefix_of` through_exit (enqueued a) /\
  (worker a = AtExec Exit ->
     exists a1 a2, run_step a = Some a1 /\ run_step a1 = Some a2 /\
       m_loop a2 = false /\ worker a2 = Returned /\
       executed a2 = executed a ++ [Exit] /\ m_messages a2 = m_messages a) /\
  (worker a = Returned ->
     forall tr a', steps tr a = Some a' ->
       worker a' = Returned /\ executed a' = executed a).
Proof.
  intros Hr. pose proof (inv_reachable _ _ Hr) as Hi.
  split; [|split; [by eapply executed_prefix | split]].
  - intros msg Hd.
    exists (set_posting (S (posting a)) (push_back msg a)).
    assert (Hs : step a (PutPush msg) =
                 Some (set_posting (S (posting a)) (push_back msg a)))
      by (simpl; by destruct (dtor a)).
    split; [done | split; [done|]].
    eapply (reachable_steps _ [PutPush msg]); [exact Hr|].
    unfold steps. by rewrite Hs.
  - intros Hw. unfold run_step at 1. rewrite Hw.
    eexists _, _. split; [done|]. by repeat split.
  - intros Hw tr a' Hrun. by eapply returned_steps.
Qed.

(** C3, as amended: when the destructor has returned, the worker thread has
    returned and nothing is executed any more; and if no sentinel had been
    enqueued before the destructor's, the worker has executed exactly the
    messages enqueued before destruction was requested, in order, and then
    the sentinel. *)
Theorem destructor_drains (u0 : U) (a : actor) (n : nat) :
  reachable u0 a ->
  dtor a = Destroyed ->
  requested a = Some n ->
  worker a = Returned /\
  (forall tr a', steps tr a = Some a' -> executed a' = executed a) /\
  (has_exit (take n (enqueued a)) = false ->
     executed a = take n (enqueued a) ++ [Exit] /\
     derived a = replay (take n (enqueued a)) u0).
Proof.
  intros Hr Hd Hn. pose proof (inv_reachable _ _ Hr) as Hi.
  destruct Hi as (_ & [Hq Hdv] & [Ht Hf] & Hdt).
  unfold dtor_inv in Hdt. rewrite Hd in Hdt.
  destruct Hdt as [(n' & Hn' & Hex) Hw]. simplify_eq.
  split; [done | split].
  - intros tr a' Hrun. by eapply returned_steps.
  - intros Hx.
    destruct (m_loop a); [by destruct (Ht eq_refl)|].
    destruct (Hf eq_refl) as [(pre & Hp & Hpx) _].
    unfold in_flight in Hq. rewrite Hw, Hp, <- (app_assoc pre) in Hq.
    simpl in Hq. rewrite Hq in Hex, Hx.
    pose proof (first_exit_position _ _ _ Hpx Hex Hx) as ->.
    assert (Htake : take (length pre) (enqueued a) = pre)
      by (rewrite Hq; by rewrite take_app_length).
    rewrite Htake. split; [done|].
    rewrite Hdv, Hp, replay_app. done.
Qed.

End Mailbox.

Lemma queued_behind_exit_never_runs_witness :
  (executed exit_first_state ++ in_flight exit_first_state)
    `prefix_of` through_exit (enqueued exit_first_state).
Proof.
  refine (proj1 (proj2
            (queued_behind_exit_never_runs 0%Z exit_first_state _))).
  exists exit_first_trace. reflexivity.
Defined.

Lemma destructor_drains_witness :
  executed destroy_state = take 1 (enqueued destroy_state) ++ [Exit].
Proof.
  refine (proj1 (proj2 (proj2 (destructor_drains 0%Z destroy_state 1 _ _ _)) _)).
  - exists destroy_trace. reflexivity.
  - reflexivity.
  - reflexivity.
  - reflexivity.
Defined.

(** C3, as stated, fails: a message enqueued after a sentinel of the
    derived class and before destruction is not executed, although the
    destructor returns. *)
Lemma destructor_drains_counterexample :
  ~ (forall a : integer,
       reachable 0%Z a -> dtor a = Destroyed ->
       drained_before_return a).
Proof.
  intros H.
  assert (Hr : reachable 0%Z exit_destroy_state)
    by (exists exit_destroy_trace; reflexivity).
  specialize (H exit_destroy_state Hr eq_refl 2 eq_refl).
  destruct H as [k Hk]. discriminate Hk.
Qed.

(** *** The worker loop when signals interrupt sem_wait *)

Section Signals.
Context {U handler : Type} `{!Exec handler U}.
Local Abbreviation message := (@Actor.message handler) (only parsing).
Local Abbreviation actor := (@Actor.actor U handler) (only parsing).
Local Abbreviation event := (@Actor.event handler) (only parsing).
Local Abbreviation signal_event := (@Actor.signal_event handler) (only parsing).

Lemma interrupt_some (a a' : actor) :
  interrupt a = Some a' -> worker a = AtWait /\ a' = set_worker AtLock a.
Proof.
  unfold interrupt. destruct (worker a) eqn:Hw; intros Hi; by simplify_eq.
Qed.

Lemma covered_step (a a' : actor) (e : event) :
  covered a -> step a e = Some a' -> covered a'.
Proof.
  intros Hc He. unfold covered, at_lock, dtor_posting in *.
  destruct e; cbn [step] in He; unfold run_step, destroy in He;
    repeat match type of He with
           | context [match ?x with _ => _ end] => destruct x eqn:?
           end;
    simplify_eq; cbn in *;
    repeat match goal with
           | H : worker _ = _ |- _ => rewrite H in *; clear H
           | H : dtor _ = _ |- _ => rewrite H in *; clear H
           | H : m_messages _ = _ |- _ => rewrite H in *; clear H
           | H : m_sem _ = _ |- _ => rewrite H in *; clear H
           | H : posting _ = _ |- _ => rewrite H in *; clear H
           end;
    cbn in *; rewrite ?length_app in *; cbn in *; lia.
Qed.

Lemma signal_inv_step (u0 : U) (a a' : actor) (e : signal_event) :
  signal_inv u0 a -> signal_step a e = Some a' -> signal_inv u0 a'.
Proof.
  intros (Hc & Hq & Hl & Hd) He. destruct e as [e|]; simpl in He.
  - split; [|split; [|split]].
    + eapply covered_step; eassumption.
    + eapply fifo_inv_step; eassumption.
    + eapply loop_inv_step; eassumption.
    + eapply dtor_inv_step; eassumption.
  - apply interrupt_some in He as [Hw ->].
    unfold signal_inv, covered, fifo_inv, loop_inv, dtor_inv, in_flight,
      at_lock, dtor_posting in *.
    cbn [set_worker m_messages m_sem posting dtor worker enqueued executed
         derived m_loop requested].
    rewrite Hw in *. split; [lia | split; [done | split]].
    + destruct Hl as [Ht Hf]. split.
      * intros Hlp. destruct (Ht Hlp). by split.
      * intros Hlp. destruct (Hf Hlp) as [_ [?|?]]; done.
    + destruct (dtor a); try done. by destruct Hd.
Qed.

Lemma signal_inv_steps (u0 : U) (tr : list signal_event) (a a' : actor) :
  signal_inv u0 a -> signal_steps tr a = Some a' -> signal_inv u0 a'.
Proof.
  revert a. induction tr as [|e tr IH]; cbn; intros a Ha Hr.
  - by simplify_eq.
  - destruct (signal_step a e) as [a1|] eqn:He; [|done].
    eauto using signal_inv_step.
Qed.

Lemma signal_inv_reachable (u0 : U) (a : actor) :
  signal_reachable u0 a -> signal_inv u0 a.
Proof.
  intros [tr Hr]. eapply signal_inv_steps; [|done].
  unfold signal_inv, covered, fifo_inv, loop_inv, dtor_inv. cbn. naive_solver.
Qed.

Lemma signal_steps_app (tr1 tr2 : list signal_event) (a : actor) :
  signal_steps (tr1 ++ tr2) a = signal_steps tr1 a ≫= signal_steps tr2.
Proof.
  revert a. induction tr1 as [|e tr1 IH]; cbn; intros a; [done|].
  destruct (signal_step a e); cbn; [apply IH | done].
Qed.

(** The runs in which no [sem_wait] is interrupted are the runs of
    [steps]. *)
Lemma signal_steps_act (tr : list event) (a : actor) :
  signal_steps (map Act tr) a = steps tr a.
Proof.
  revert a. induction tr as [|e tr IH]; intros a; [done|].
  cbn. destruct (step a e); [apply IH | done].
Qed.

Lemma uninterrupted_steps (tr : list signal_event) (a a' : actor) :
  signal_steps tr a = Some a' -> interrupted tr = false ->
  exists tr0, steps tr0 a = Some a'.
Proof.
  revert a. induction tr as [|e tr IH]; cbn; intros a Hr Hi.
  - by exists [].
  - destruct e as [e|]; [|done]. cbn in Hr, Hi.
    destruct (step a e) as [a1|] eqn:He; [|done].
    destruct (IH a1 Hr Hi) as [tr0 H0]. exists (e :: tr0). cbn. by rewrite He.
Qed.

Lemma signal_reachable_steps (u0 : U) (tr : list event) (a a' : actor) :
  signal_reachable u0 a -> steps tr a = Some a' -> signal_reachable u0 a'.
Proof.
  intros [tr0 H0] Hr. exists (tr0 ++ map Act tr).
  by rewrite signal_steps_app, H0, <- signal_steps_act in *.
Qed.

Lemma executed_prefix_signal (u0 : U) (a : actor) :
  signal_inv u0 a ->
  (executed a ++ in_flight a) `prefix_of` through_exit (enqueued a).
Proof.
  intros (_ & [Hq _] & [Ht Hf] & _). rewrite Hq.
  destruct (m_loop a).
  - destruct (Ht eq_refl) as [Hx _].
    rewrite through_exit_app by done. apply prefix_app.
    unfold in_flight. destruct (worker a) as [| | |[|h]| |]; simpl;
      first [apply prefix_nil | apply prefix_cons, prefix_nil].
  - destruct (Hf eq_refl) as [(pre & Hp & Hx) Hw].
    assert (in_flight a = []) as ->
      by (unfold in_flight; by destruct Hw as [-> | ->]).
    rewrite Hp, app_nil_r. simpl. rewrite <- (app_assoc pre). simpl.
    by rewrite through_exit_first.
Qed.

Lemma enqueued_grows (tr : list signal_event) (a a' : actor) :
  signal_steps tr a = Some a' -> enqueued a `prefix_of` enqueued a'.
Proof.
  revert a. induction tr as [|e tr IH]; cbn; intros a Hr.
  - by simplify_eq.
  - destruct (signal_step a e) as [a1|] eqn:He; [|done].
    transitivity (enqueued a1); [|by apply IH].
    destruct e as [e|]; simpl in He.
    + destruct e; cbn [step] in He; unfold run_step, destroy in He;
        repeat match type of He with
               | context [match ?x with _ => _ end] => destruct x eqn:?
               end;
        simplify_eq; cbn; first [done | by apply prefix_app_r].
    + by apply interrupt_some in He as [_ ->].
Qed.

(** With an empty list and no message taken the worker executes nothing. *)
Lemma run_step_idle (a a' : actor) :
  m_messages a = [] -> in_flight a = [] -> run_step a = Some a' ->
  m_messages a' = [] /\ in_flight a' = [] /\ executed a' = executed a.
Proof.
  unfold run_step, in_flight. intros Hm Hi Hs.
  destruct (worker a); try done.
  - by destruct (m_loop a); simplify_eq.
  - by destruct (m_sem a); simplify_eq.
  - rewrite Hm in Hs. by simplify_eq.
Qed.

Lemma run_alone_idle (fuel : nat) (a : actor) :
  m_messages a = [] -> in_flight a = [] ->
  executed (run_alone fuel a) = executed a /\ in_flight (run_alone fuel a) = [].
Proof.
  revert a. induction fuel as [|fuel IH]; intros a Hm Hi; simpl; [done|].
  destruct (run_step a) as [a1|] eqn:Hs; [|done].
  destruct (run_step_idle _ _ Hm Hi Hs) as (Hm1 & Hi1 & <-). by apply IH.
Qed.

Lemma run_alone_covered_loop (msgs : list message) :
  forall (a : actor) (fuel : nat),
    worker a = AtLoop -> m_loop a = true -> m_messages a = msgs ->
    length msgs <= m_sem a -> 4 * length msgs + 1 <= fuel ->
    executed (run_alone fuel a) = executed a ++ through_exit msgs /\
    in_flight (run_alone fuel a) = [].
Proof.
  induction msgs as [|msg rest IH]; intros [] fuel Hw Hl Hm Hs Hf;
    simpl in Hw, Hl, Hm, Hs; subst.
  - simpl. rewrite app_nil_r. by apply run_alone_idle.
  - simpl length in Hf. destruct m_sem0 as [|sm]; [lia|].
    do 4 (destruct fuel as [|fuel]; [lia|]).
    rewrite run_alone_iteration.
    destruct msg as [|h].
    + destruct fuel as [|fuel]; [lia|].
      change (run_alone (S fuel) _) with
        (run_alone fuel (mk_actor false sm rest Returned posting0
                            dtor0 derived0 enqueued0 (executed0 ++ [Exit])
                            requested0)).
      by rewrite run_alone_stuck.
    + edestruct (IH (exec (Call h)
                       (mk_actor true sm rest AtLoop posting0 dtor0
                          derived0 enqueued0 executed0 requested0)) fuel)
        as [He Hp]; [done | done | done | simpl; lia | lia |].
      rewrite He, Hp. simpl. by rewrite <- app_assoc.
Qed.

Lemma run_alone_covered_exec (fuel sm : nat) (msg : message)
    (msgs : list message) (p : nat) (d : dtor_pc) (dv : U)
    (enq exd : list message) (rq : option nat) :
  length msgs <= sm -> 4 * length msgs + 2 <= fuel ->
  let a := mk_actor true sm msgs (AtExec msg) p d dv enq exd rq in
  executed (run_alone fuel a) = exd ++ through_exit (msg :: msgs) /\
  in_flight (run_alone fuel a) = [].
Proof.
  intros Hs Hf a. subst a.
  destruct fuel as [|fuel]; [lia|].
  change (run_alone (S fuel) _) with
    (run_alone fuel
       (exec msg (mk_actor true sm msgs AtLoop p d dv enq exd rq))).
  destruct msg as [|h].
  - destruct fuel as [|fuel]; [lia|].
    change (run_alone (S fuel) _) with
      (run_alone fuel (mk_actor false sm msgs Returned p d dv enq
                          (exd ++ [Exit]) rq)).
    by rewrite run_alone_stuck.
  - edestruct (run_alone_covered_loop msgs
                 (exec (Call h)
                    (mk_actor true sm msgs AtLoop p d dv enq exd rq))
                 fuel) as [He Hp]; [done | done | done | simpl; lia | lia |].
    rewrite He. split; [|done]. simpl. by rewrite <- app_assoc.
Qed.

(** Once every [put] has posted, the worker alone executes the queue up to
    its first sentinel, also after interrupted waits. *)
Lemma run_alone_drains_signal (u0 : U) (a : actor) (fuel : nat) :
  signal_inv u0 a -> quiescent a -> worker a <> Aborted ->
  4 * length (m_messages a) + 4 <= fuel ->
  executed (run_alone fuel a) = through_exit (enqueued a) /\
  in_flight (run_alone fuel a) = [].
Proof.
  intros (Hs & [Hq _] & [Ht Hf] & _) [Hp Hd] Ha Hfuel.
  unfold covered, at_lock, dtor_posting, in_flight in Hs, Hq. rewrite Hq.
  clear Hq.
  destruct a as [lp sm msgs w p d dv enq exd rq].
  simpl in Hs, Ha, Ht, Hf, Hp, Hd, Hfuel.
  cbn [executed worker m_messages].
  subst p.
  assert (Hd0 : match d with DtorPushed => 1 | _ => 0 end = 0) by by destruct d.
  rewrite Hd0 in Hs. clear Hd0 Hd.
  destruct lp.
  - destruct (Ht eq_refl) as [Hx Hr]. clear Ht Hf.
    rewrite through_exit_app by done.
    destruct w as [| | |msg| |]; try done.
    + edestruct (run_alone_covered_loop msgs
                   (mk_actor true sm msgs AtLoop 0 d dv enq exd rq) fuel)
        as [He Hw]; [done | done | done | simpl; lia | lia |].
      by rewrite He.
    + destruct msgs as [|msg rest]; simpl in Hs.
      * simpl. rewrite app_nil_r. by apply run_alone_idle.
      * destruct sm as [|sm]; [lia|].
        do 2 (destruct fuel as [|fuel]; [simpl in Hfuel; lia|]).
        change (run_alone (S (S fuel)) _) with
          (run_alone fuel
             (mk_actor true sm rest (AtExec msg) 0 d dv enq exd rq)).
        apply run_alone_covered_exec; [lia | simpl in Hfuel; lia].
    + destruct msgs as [|msg rest]; simpl in Hs.
      * simpl. rewrite app_nil_r. by apply run_alone_idle.
      * destruct fuel as [|fuel]; [simpl in Hfuel; lia|].
        change (run_alone (S fuel) _) with
          (run_alone fuel
             (mk_actor true sm rest (AtExec msg) 0 d dv enq exd rq)).
        apply run_alone_covered_exec; [lia | simpl in Hfuel; lia].
    + apply run_alone_covered_exec; lia.
  - destruct (Hf eq_refl) as [(pre & -> & Hx) Hw]. clear Ht Hf.
    rewrite <- (app_assoc pre). simpl app at 2.
    rewrite through_exit_first by done.
    destruct Hw as [-> | ->].
    + destruct fuel as [|fuel]; [lia|].
      change (run_alone (S fuel) _) with
        (run_alone fuel (mk_actor false sm msgs Returned 0 d dv enq
                            (pre ++ [Exit]) rq)).
      by rewrite run_alone_stuck.
    + by rewrite run_alone_stuck.
Qed.

(** *** The claims on the assert and on the order of execution *)

(** C10 on the code: a signal that interrupts the [sem_wait] of a worker
    whose list is empty takes the worker to the assert of line 54, which
    fails; one that interrupts it while a message is in the list leaves the
    semaphore above the number of messages. In the runs in which no
    [sem_wait] is interrupted the semaphore never counts more than the
    messages of the list, the list is not empty when [sem_wait] has
    returned, and the assert does not fail. *)
Theorem assert_fails_after_interrupted_wait (u0 : U) :
  (exists a,
     signal_steps [Act Run; Interrupt; Act Run] (init u0) = Some a /\
     worker a = Aborted /\ m_messages a = []) /\
  (forall h, exists a,
     signal_steps [Act Run; Act (PutPush (Call h)); Interrupt; Act Run;
                   Act Run; Act PutPost] (init u0) = Some a /\
     m_sem a = 1 /\ m_messages a = [] /\ worker a = AtLoop) /\
  (forall tr a,
     signal_steps tr (init u0) = Some a -> interrupted tr = false ->
     m_sem a <= length (m_messages a) /\
     (worker a = AtLock ->
        exists msg rest, m_messages a = msg :: rest /\
          run_step a = Some (set_worker (AtExec msg) (pop_front a))) /\
     worker a <> Aborted).
Proof.
  split; [by eexists | split; [by eexists|]].
  intros tr a Hr Hi. destruct (uninterrupted_steps _ _ _ Hr Hi) as [tr0 H0].
  assert (reachable u0 a) as Hreach by by exists tr0.
  destruct (inv_reachable _ _ Hreach) as ([Hs Ha] & _).
  split; [lia | split; [|done]].
  intros Hw. unfold at_lock in Hs. unfold run_step. rewrite Hw in *.
  destruct (m_messages a) as [|msg rest]; simpl in Hs; [lia | eauto].
Qed.

(** C1, as amended: also when waits are interrupted, the messages ever
    enqueued are, in the order of their enqueueing, those executed, then the
    one in execution, then those still in the list; the derived state is
    the result of the executed calls in that order; what has been executed
    or is in execution is a prefix of the queue up to its first sentinel;
    and once every caller of [put] has posted, the worker (unless it has
    failed its assert) alone executes the whole queue in that order up to
    its first sentinel, all of it when no sentinel was enqueued. *)
Theorem fifo_order (u0 : U) (a : actor) :
  signal_reachable u0 a ->
  enqueued a = executed a ++ in_flight a ++ m_messages a /\
  derived a = replay (executed a) u0 /\
  (executed a ++ in_flight a) `prefix_of` through_exit (enqueued a) /\
  (quiescent a -> worker a <> Aborted ->
     let a' := run_alone (4 * length (m_messages a) + 4) a in
     signal_reachable u0 a' /\
     in_flight a' = [] /\
     executed a' = through_exit (enqueued a) /\
     (has_exit (enqueued a) = false -> executed a' = enqueued a)).
Proof.
  intros Hr. pose proof (signal_inv_reachable _ _ Hr) as Hi.
  pose proof Hi as (Hs & [Hq Hd] & Hl & Hdt).
  split; [done | split; [done | split; [by eapply executed_prefix_signal|]]].
  intros Hqu Hw a'.
  destruct (run_alone_drains_signal u0 a (4 * length (m_messages a) + 4))
    as [He Hf]; [done | done | done | lia |].
  destruct (run_alone_run (4 * length (m_messages a) + 4) a) as [n Hn].
  split; [by eapply signal_reachable_steps | split; [done | split; [done|]]].
  intros Hx. subst a'. rewrite He. by apply through_exit_no_exit.
Qed.

(** A message behind a sentinel is in no continuation executed. *)
Lemma behind_exit_dropped (u0 : U) (a : actor) (l : list message)
    (msg : message) :
  signal_reachable u0 a -> Exit :: msg :: l `prefix_of` enqueued a ->
  ~ executes_all a.
Proof.
  intros [tr0 H0] Hpre (tr & a' & Hr & He).
  assert (signal_reachable u0 a') as Hr'
    by (exists (tr0 ++ tr); by rewrite signal_steps_app, H0).
  pose proof (executed_prefix_signal u0 a' (signal_inv_reachable _ _ Hr'))
    as Hp.
  pose proof (enqueued_grows _ _ _ Hr) as Hg.
  destruct Hpre as [k1 Hk1]. destruct Hg as [k2 Hk2].
  rewrite Hk2, Hk1 in Hp, He. simpl in Hp.
  apply prefix_length in Hp. rewrite length_app in Hp. simpl in Hp.
  apply (f_equal length) in He. simpl in He. lia.
Qed.

(** *** More on the worker: wake-ups and its end *)

(** X1 (no lost wake-up): once every caller of [put] has posted, also after
    interrupted waits, the semaphore and the worker that has left
    [sem_wait] cover every message of the list, so a worker that is blocked
    in [sem_wait] has an empty list; and when no wait was interrupted they
    count exactly the messages, so the worker is blocked whenever the list
    is empty. *)
Theorem no_wakeup_is_lost (u0 : U) (tr : list signal_event) (a : actor) :
  signal_steps tr (init u0) = Some a -> quiescent a ->
  length (m_messages a) <= m_sem a + at_lock a /\
  (worker a = AtWait -> run_step a = None -> m_messages a = []) /\
  (interrupted tr = false ->
     m_sem a + at_lock a = length (m_messages a) /\
     (worker a = AtWait -> m_messages a = [] -> run_step a = None)).
Proof.
  intros Hr [Hp Hd].
  assert (signal_reachable u0 a) as Hreach by by exists tr.
  destruct (signal_inv_reachable _ _ Hreach) as (Hc & _).
  unfold covered, dtor_posting in Hc.
  assert (length (m_messages a) <= m_sem a + at_lock a) as Hle
    by (destruct (dtor a); try done; lia).
  split; [done | split].
  - intros Hw Hb. unfold at_lock in Hle. unfold run_step in Hb.
    rewrite Hw in *. destruct (m_sem a); [|done].
    destruct (m_messages a); [done | simpl in Hle; lia].
  - intros Hi. destruct (uninterrupted_steps _ _ _ Hr Hi) as [tr0 H0].
    assert (reachable u0 a) as Hreach0 by by exists tr0.
    destruct (inv_reachable _ _ Hreach0) as ([Hs _] & _).
    unfold dtor_posting in Hs.
    assert (m_sem a + at_lock a = length (m_messages a)) as Hsem
      by (destruct (dtor a); try done; lia).
    split; [done|]. intros Hw Hm. unfold at_lock in Hsem. unfold run_step.
    rewrite Hw, Hm in *. by destruct (m_sem a).
Qed.

(** X2 (the end of the worker): the loop flag is cleared exactly when a
    sentinel has been executed; a worker that has returned from [run] has
    executed one sentinel, as its last message; and the worker ends in the
    failed assert only in a run in which a [sem_wait] was interrupted. *)
Theorem worker_ends_by_exit_or_assert (u0 : U) (tr : list signal_event)
    (a : actor) :
  signal_steps tr (init u0) = Some a ->
  m_loop a = negb (has_exit (executed a)) /\
  (worker a = Returned ->
     exists pre, executed a = pre ++ [Exit] /\ has_exit pre = false) /\
  (worker a = Aborted -> interrupted tr = true).
Proof.
  intros Hr.
  assert (signal_reachable u0 a) as Hreach by by exists tr.
  destruct (signal_inv_reachable _ _ Hreach) as (_ & _ & [Ht Hf] & _).
  split; [|split].
  - destruct (m_loop a) eqn:Hl.
    + destruct (Ht eq_refl) as [Hx Hw]. by rewrite Hx.
    + destruct (Hf eq_refl) as [(pre & Hp & Hx) _].
      by rewrite Hp, has_exit_app, Hx.
  - intros Hw. destruct (m_loop a) eqn:Hl.
    + by destruct (Ht eq_refl).
    + destruct (Hf eq_refl) as [? _]. done.
  - intros Hw. destruct (interrupted tr) eqn:Hi; [done|].
    destruct (uninterrupted_steps _ _ _ Hr Hi) as [tr0 H0].
    assert (reachable u0 a) as Hreach0 by by exists tr0.
    by destruct (inv_reachable _ _ Hreach0) as ([_ Ha] & _).
Qed.

End Signals.

Example early_state_reached :
  signal_steps early_trace (init 0%Z) = Some early_state.
Proof. reflexivity. Qed.

Lemma fifo_order_witness :
  executed (run_alone 8 early_state) = [Call 5%Z; Call 7%Z].
Proof.
  destruct (fifo_order 0%Z early_state) as (_ & _ & _ & H).
  - exists early_trace. reflexivity.
  - destruct H as (_ & _ & _ & H).
    + split; [reflexivity | discriminate].
    + discriminate.
    + apply H. reflexivity.
Defined.

(** C1, as stated, fails: a derived class calls [exit()], then [set(7)] is
    called; [set(7)] is enqueued and in no continuation executed. *)
Lemma fifo_order_counterexample :
  signal_reachable 0%Z exit_first_state /\ ~ executes_all exit_first_state.
Proof.
  assert (signal_reachable 0%Z exit_first_state) as Hr
    by (exists (map Act exit_first_trace); reflexivity).
  split; [exact Hr|].
  apply (behind_exit_dropped 0%Z exit_first_state [] (Call 7%Z) Hr).
  by exists [].
Qed.

Lemma no_wakeup_is_lost_witness :
  length (m_messages early_state) <= m_sem early_state + at_lock early_state.
Proof.
  refine (proj1 (no_wakeup_is_lost 0%Z early_trace early_state _ _)).
  - reflexivity.
  - split; [reflexivity | discriminate].
Defined.

Lemma worker_ends_by_exit_or_assert_witness :
  interrupted interrupt_trace = true.
Proof.
  refine (proj2 (proj2 (worker_ends_by_exit_or_assert 0%Z interrupt_trace
                          interrupt_state _)) _); reflexivity.
Defined.

(** *** More on the mailbox: shutdown *)

Section MailboxLife.
Context {U handler : Type} `{!Exec handler U}.
Local Abbreviation message := (@Actor.message handler) (only parsing).
Local Abbreviation actor := (@Actor.actor U handler) (only parsing).
Local Abbreviation event := (@Actor.event handler) (only parsing).








End MailboxLife.


End ActorFacts.

(** ** Reference-counted storage of a future *)

Module ResultFacts.
Import Result.

Section Storage.
Context {R : Type}.
Local Abbreviation data := (@Result.data R) (only parsing).
Local Abbreviation store := (@Result.store R) (only parsing).
Local Abbreviation op := (@Result.op R) (only parsing).
Local Abbreviation empty := (@Result.empty R) (only parsing).

(** *** Counting the handles *)

Lemma aliases_insert_fresh (l h l' : nat) (hs : gmap nat nat) :
  hs !! h = None ->
  aliases l (<[h := l']> hs) =
    if decide (l' = l) then S (aliases l hs) else aliases l hs.
Proof.
  intros Hh. unfold aliases. rewrite map_filter_insert. simpl.
  destruct (decide (l' = l)) as [->|Hne].
  - rewrite map_size_insert_None; [done|].
    apply map_lookup_filter_None_2. by left.
  - by rewrite delete_id.
Qed.

Lemma aliases_delete (l h l' : nat) (hs : gmap nat nat) :
  hs !! h = Some l' ->
  aliases l hs =
    if decide (l' = l) then S (aliases l (delete h hs)) else aliases l (delete h hs).
Proof.
  intros Hh. rewrite <- (insert_id hs h l') at 1 by done.
  rewrite <- insert_delete_eq. apply aliases_insert_fresh, lookup_delete_eq.
Qed.

Lemma aliases_insert_over (l h l0 l' : nat) (hs : gmap nat nat) :
  hs !! h = Some l0 ->
  aliases l (<[h := l']> hs) =
    if decide (l' = l) then S (aliases l (delete h hs)) else aliases l (delete h hs).
Proof.
  intros Hh. rewrite <- insert_delete_eq.
  apply aliases_insert_fresh, lookup_delete_eq.
Qed.

Lemma aliases_le_size (l : nat) (hs : gmap nat nat) : aliases l hs <= size hs.
Proof. apply map_subseteq_size, map_filter_subseteq. Qed.

Lemma aliases_lookup (l h : nat) (hs : gmap nat nat) :
  hs !! h = Some l -> 0 < aliases l hs.
Proof.
  intros Hh. rewrite (aliases_delete l h l hs Hh).
  rewrite decide_True by done. lia.
Qed.

Lemma aliases_pos (l : nat) (hs : gmap nat nat) :
  0 < aliases l hs -> exists h, hs !! h = Some l.
Proof.
  unfold aliases. intros Hpos.
  destruct (map_choose (filter (fun hl => hl.2 = l) hs)) as (h & l' & Hl).
  - intros He. rewrite He, map_size_empty in Hpos. lia.
  - apply map_lookup_filter_Some in Hl as [Hl Heq]. simpl in Heq. subst. eauto.
Qed.

Lemma wrap_small (z : Z) : (0 <= z <= size_max)%Z -> wrap z = z.
Proof. intros Hz. unfold wrap. apply Z.mod_small. lia. Qed.

Lemma wrap_inc_dec (z : Z) :
  (1 <= z <= size_max)%Z -> wrap (wrap (z + 1) - 1) = z.
Proof.
  intros Hz. unfold wrap.
  rewrite Zminus_mod_idemp_l.
  replace (z + 1 - 1)%Z with z by lia. apply Z.mod_small. lia.
Qed.

Lemma aliases_move (l h lh lr : nat) (hs : gmap nat nat) :
  hs !! h = Some lh -> lh <> lr ->
  aliases l (<[h := lr]> hs) =
    if decide (l = lr) then S (aliases l hs)
    else if decide (l = lh) then pred (aliases l hs)
    else aliases l hs.
Proof.
  intros Hh Hne.
  rewrite (aliases_insert_over l h lh lr hs Hh), (aliases_delete l h lh hs Hh).
  repeat case_decide; simplify_eq; done.
Qed.

Lemma count_fits (l : nat) (s : store) (d : data) :
  refcount_inv s -> cells s !! l = Some d ->
  (1 <= m_ref_count d <= size_max)%Z.
Proof.
  intros (_ & H2 & H3) Hd. destruct (H2 _ _ Hd) as [-> Hpos].
  pose proof (aliases_le_size l (handles s)). lia.
Qed.

Lemma construct_counted (h : nat) (v : R) (s : store) :
  refcount_inv s -> counted (construct h v s).
Proof.
  intros (H1 & H2 & H3). unfold construct, has_room.
  destruct (handles s !! h) eqn:Hh; [done|].
  destruct (Z.ltb_spec (Z.of_nat (size (handles s))) size_max) as [Hroom|]; [|done].
  set (l := fresh (dom (cells s))).
  assert (Hl : cells s !! l = None) by apply not_elem_of_dom, is_fresh.
  assert (Hal : aliases l (handles s) = 0).
  { destruct (aliases l (handles s)) eqn:Ha; [done|]. exfalso.
    destruct (aliases_pos l (handles s)) as [h0 Hh0]; [lia|].
    apply H1 in Hh0 as [d Hd]. congruence. }
  split; [|split]; simpl.
  - intros h' l'. rewrite lookup_insert_Some. intros [[<- <-] | [? Hh']].
    + rewrite lookup_insert_eq. eauto.
    + apply H1 in Hh' as [d Hd].
      destruct (decide (l' = l)) as [->|]; [congruence|].
      rewrite lookup_insert_ne by done. eauto.
  - intros l' d'. rewrite lookup_insert_Some, aliases_insert_fresh by done.
    intros [[<- <-] | [Hne Hd']].
    + rewrite decide_True, Hal by done. simpl. split; [done | lia].
    + rewrite decide_False by done. by apply H2.
  - rewrite map_size_insert_None by done. lia.
Qed.

Lemma copy_counted (h r : nat) (s : store) :
  refcount_inv s -> counted (copy h r s).
Proof.
  intros Hinv. pose proof Hinv as (H1 & H2 & H3). unfold copy, has_room.
  destruct (handles s !! h) eqn:Hh; [done|].
  destruct (handles s !! r) as [l|] eqn:Hr; [|done].
  destruct (Z.ltb_spec (Z.of_nat (size (handles s))) size_max) as [Hroom|]; [|done].
  destruct (H1 _ _ Hr) as [d Hd]. unfold inc_ref. simpl. rewrite Hd. simpl.
  destruct (H2 _ _ Hd) as [Hc Hpos].
  pose proof (aliases_le_size l (handles s)) as Hle.
  split; [|split]; simpl.
  - intros h' l'. rewrite lookup_insert_Some. intros [[<- <-] | [? Hh']].
    + rewrite lookup_insert_eq. eauto.
    + apply H1 in Hh' as [d' Hd'].
      destruct (decide (l' = l)) as [->|];
        [rewrite lookup_insert_eq | rewrite lookup_insert_ne by done]; eauto.
  - intros l' d'. rewrite lookup_insert_Some, aliases_insert_fresh by done.
    intros [[<- <-] | [Hne Hd']].
    + rewrite decide_True by done. simpl.
      rewrite wrap_small by lia. split; lia.
    + rewrite decide_False by done. by apply H2.
  - rewrite map_size_insert_None by done. lia.
Qed.

Lemma destroy_counted (h : nat) (s : store) :
  refcount_inv s -> counted (destroy h s).
Proof.
  intros Hinv. pose proof Hinv as (H1 & H2 & H3). unfold destroy.
  destruct (handles s !! h) as [l|] eqn:Hh; [|done].
  destruct (H1 _ _ Hh) as [d Hd]. unfold dec_ref. simpl. rewrite Hd.
  destruct (H2 _ _ Hd) as [Hc Hpos].
  pose proof (aliases_le_size l (handles s)) as Hle.
  pose proof (aliases_delete l h l (handles s) Hh) as Hal.
  rewrite decide_True in Hal by done.
  assert (Hsize : size (delete h (handles s)) = pred (size (handles s)))
    by (apply map_size_delete_Some; eauto).
  assert (Hother : forall l', l' <> l ->
            aliases l' (delete h (handles s)) = aliases l' (handles s)).
  { intros l' Hne. rewrite (aliases_delete l' h l (handles s) Hh).
    by rewrite decide_False. }
  rewrite wrap_small by lia.
  destruct (Z.eqb_spec (m_ref_count d - 1) 0) as [Hz|Hnz].
  - (* the last handle is gone: delete this *)
    split; [|split]; simpl.
    + intros h' l'. rewrite lookup_delete_Some. intros [Hne Hh'].
      assert (l' <> l).
      { intros ->.
        assert (0 < aliases l (delete h (handles s)))
          by (eapply aliases_lookup; by rewrite lookup_delete_ne).
        lia. }
      rewrite lookup_delete_ne by done. by eapply H1.
    + intros l' d'. rewrite lookup_delete_Some. intros [Hne Hd'].
      rewrite Hother by done. by apply H2.
    + lia.
  - split; [|split]; simpl.
    + intros h' l'. rewrite lookup_delete_Some. intros [Hne Hh'].
      destruct (H1 _ _ Hh') as [d' Hd'].
      destruct (decide (l' = l)) as [->|];
        [rewrite lookup_insert_eq | rewrite lookup_insert_ne by done]; eauto.
    + intros l' d'. rewrite lookup_insert_Some. intros [[<- <-] | [Hne Hd']].
      * simpl. split; lia.
      * rewrite Hother by done. by apply H2.
    + lia.
Qed.

Lemma assign_counted (h r : nat) (s : store) :
  refcount_inv s -> counted (assign h r s).
Proof.
  intros Hinv. pose proof Hinv as (H1 & H2 & H3). unfold assign.
  destruct (handles s !! h) as [lh|] eqn:Hh; [|done].
  destruct (handles s !! r) as [lr|] eqn:Hr; [|done].
  destruct (H1 _ _ Hr) as [dr Hdr]. destruct (H1 _ _ Hh) as [dh Hdh].
  pose proof (count_fits _ _ _ Hinv Hdr) as Hfr.
  pose proof (count_fits _ _ _ Hinv Hdh) as Hfh.
  unfold inc_ref. rewrite Hdr. simpl. unfold dec_ref. simpl.
  destruct (decide (lh = lr)) as [->|Hne].
  - (* self-assignment, or two handles of one future *)
    rewrite lookup_insert_eq. simpl. rewrite wrap_inc_dec by done.
    destruct (Z.eqb_spec (m_ref_count dr) 0) as [|_]; [lia|]. simpl.
    rewrite (insert_id (handles s) h lr) by done.
    split; [|split]; simpl; [| |done].
    + intros h' l' Hh'. destruct (H1 _ _ Hh') as [d' Hd'].
      destruct (decide (l' = lr)) as [->|];
        [rewrite lookup_insert_eq | rewrite !lookup_insert_ne by done]; eauto.
    + intros l' d'. rewrite lookup_insert_Some. intros [[<- <-] | [Hne Hd']].
      * simpl. by apply H2.
      * rewrite lookup_insert_ne in Hd' by done. by apply H2.
  - rewrite lookup_insert_ne by done. rewrite Hdh.
    destruct (H2 _ _ Hdr) as [Hcr Hpr]. destruct (H2 _ _ Hdh) as [Hch Hph].
    assert (Hsize : size (<[h := lr]> (handles s)) = size (handles s))
      by (apply map_size_insert_Some; eauto).
    pose proof (aliases_le_size lr (<[h := lr]> (handles s))) as Hle.
    pose proof (fun l => aliases_move l h lh lr (handles s) Hh Hne) as Hmv.
    rewrite (Hmv lr), decide_True in Hle by done.
    rewrite (wrap_small (m_ref_count dh - 1)) by lia.
    rewrite (wrap_small (m_ref_count dr + 1)) by lia.
    destruct (Z.eqb_spec (m_ref_count dh - 1) 0) as [Hz|Hnz]; simpl.
    + (* the target held the last handle of its future *)
      split; [|split]; simpl; [| |lia].
      * intros h' l'. rewrite lookup_insert_Some. intros [[<- <-] | [? Hh']].
        { rewrite lookup_delete_ne, lookup_insert_eq by done. eauto. }
        assert (l' <> lh).
        { intros ->.
          assert (0 < aliases lh (<[h := lr]> (handles s)))
            by (eapply aliases_lookup; by rewrite lookup_insert_ne).
          rewrite (Hmv lh), decide_False, decide_True in * by done. lia. }
        rewrite lookup_delete_ne by done.
        destruct (H1 _ _ Hh') as [d' Hd'].
        destruct (decide (l' = lr)) as [->|];
          [rewrite lookup_insert_eq | rewrite lookup_insert_ne by done]; eauto.
      * intros l' d'. rewrite lookup_delete_Some, lookup_insert_Some.
        intros [Hl' [[<- <-] | [Hl'' Hd']]]; rewrite Hmv.
        { rewrite decide_True by done. simpl. split; lia. }
        rewrite !decide_False by done. by apply H2.
    + split; [|split]; simpl; [| |lia].
      * intros h' l'. rewrite lookup_insert_Some. intros [[<- <-] | [? Hh']].
        { rewrite lookup_insert_ne, lookup_insert_eq by done. eauto. }
        destruct (H1 _ _ Hh') as [d' Hd'].
        destruct (decide (l' = lh)) as [->|]; [rewrite lookup_insert_eq; eauto|].
        rewrite lookup_insert_ne by done.
        destruct (decide (l' = lr)) as [->|];
          [rewrite lookup_insert_eq | rewrite lookup_insert_ne by done]; eauto.
      * intros l' d'. rewrite !lookup_insert_Some.
        intros [[<- <-] | [Hl' [[<- <-] | [Hl'' Hd']]]]; rewrite Hmv.
        { rewrite decide_False, decide_True by done. simpl. split; lia. }
        { rewrite decide_True by done. simpl. split; lia. }
        rewrite !decide_False by done. by apply H2.
Qed.

Lemma set_counted (h : nat) (v : R) (s : store) :
  refcount_inv s -> counted (set h v s).
Proof.
  intros (H1 & H2 & H3). unfold set.
  destruct (handles s !! h) as [l|] eqn:Hh; [|done].
  destruct (H1 _ _ Hh) as [d Hd]. rewrite Hd.
  split; [|split]; simpl; [| |done].
  - intros h' l' Hh'. destruct (H1 _ _ Hh') as [d' Hd'].
    destruct (decide (l' = l)) as [->|];
      [rewrite lookup_insert_eq | rewrite lookup_insert_ne by done]; eauto.
  - intros l' d'. rewrite lookup_insert_Some. intros [[<- <-] | [Hne Hd']].
    + simpl. by apply H2.
    + by apply H2.
Qed.

Lemma apply_counted (o : op) (s : store) :
  refcount_inv s -> counted (apply o s).
Proof.
  destruct o; simpl;
    eauto using construct_counted, copy_counted, destroy_counted,
      assign_counted, set_counted.
Qed.

Lemma apply_all_counted (ops : list op) (s : store) :
  refcount_inv s -> counted (apply_all ops s).
Proof.
  revert s. induction ops as [|o ops IH]; intros s Hs; simpl; [done|].
  pose proof (apply_counted o s Hs) as Ho.
  destruct (apply o s); simpl; [by apply IH | done | done].
Qed.

Lemma empty_counted : refcount_inv empty.
Proof.
  split; [|split]; simpl.
  - intros h l Hh. by rewrite lookup_empty in Hh.
  - intros l d Hd. by rewrite lookup_empty in Hd.
  - rewrite map_size_empty. unfold size_max. lia.
Qed.

Lemma destroy_last (h l : nat) (d : data) (s : store) :
  refcount_inv s -> handles s !! h = Some l -> cells s !! l = Some d ->
  exists s', destroy h s = Done s' /\
    (cells s' !! l = None <-> m_ref_count d = 1%Z).
Proof.
  intros Hinv Hh Hd. pose proof (count_fits _ _ _ Hinv Hd) as Hfit.
  unfold destroy, dec_ref. rewrite Hh. simpl. rewrite Hd.
  rewrite wrap_small by lia.
  destruct (Z.eqb_spec (m_ref_count d - 1) 0) as [Hz|Hnz]; eexists; (split; [done|]); simpl.
  - rewrite lookup_delete_eq. split; [lia | done].
  - rewrite lookup_insert_eq. split; [done | lia].
Qed.

(** *** The stores a program can build *)

Lemma reachable_counted (s : store) : reachable s -> refcount_inv s.
Proof.
  intros [ops Hops].
  pose proof (apply_all_counted ops Result.empty empty_counted) as Hc.
  by rewrite Hops in Hc.
Qed.

Lemma reachable_apply (s s' : store) (o : op) :
  reachable s -> apply o s = Done s' -> reachable s'.
Proof.
  intros [ops Hops] Ho. exists (ops ++ [o]).
  revert Hops. generalize (@Result.empty R).
  induction ops as [|o1 ops IH]; simpl; intros s0 Hops.
  - simplify_eq. by rewrite Ho.
  - destruct (apply o1 s0); simpl in *; [by apply IH | done | done].
Qed.

Lemma data_eta (d : data) :
  mk_data (m_ref_count d) (m_value d) (m_value_set d) = d.
Proof. by destruct d. Qed.

(** *** The claim on the reference count *)

(** C4: in every store that constructions, copies, destructions,
    assignments and sets of handles can build, every live handle points to
    storage that is not deleted and the count of every such storage is the
    number of live handles that point to it, which is not 0. On such a store
    every operation completes without touching deleted storage: a
    construction makes new storage of count 1; a copy adds 1 to the count of
    its source; a destruction takes 1 from the count and deletes the storage
    exactly when the count was 1; an assignment from a handle of another
    storage adds 1 to the count of the source and takes 1 from that of the
    target, deleting it exactly when its count was 1; an assignment between
    handles of one storage changes nothing. The count never wraps around. *)
Theorem ref_count_is_handle_count (s : store) :
  reachable s ->
  ((forall h l, handles s !! h = Some l -> is_Some (cells s !! l)) /\
   (forall l d, cells s !! l = Some d ->
      m_ref_count d = Z.of_nat (aliases l (handles s)) /\
      exists h, handles s !! h = Some l)) /\
  (forall h v, handles s !! h = None -> has_room s = true ->
     exists l, cells s !! l = None /\
       construct h v s =
         Done (mk_store (<[l := mk_data 1 v false]> (cells s))
                 (<[h := l]> (handles s)))) /\
  (forall h r l,
     handles s !! h = None -> handles s !! r = Some l -> has_room s = true ->
     exists d, cells s !! l = Some d /\
       copy h r s =
         Done (mk_store (<[l := count_up d]> (cells s))
                 (<[h := l]> (handles s)))) /\
  (forall h l, handles s !! h = Some l ->
     exists d, cells s !! l = Some d /\
       destroy h s =
         Done (mk_store (released l d (cells s)) (delete h (handles s)))) /\
  (forall h r lh lr,
     handles s !! h = Some lh -> handles s !! r = Some lr ->
     exists dh dr, cells s !! lh = Some dh /\ cells s !! lr = Some dr /\
       assign h r s =
         Done (if decide (lh = lr) then s
               else mk_store
                      (released lh dh (<[lr := count_up dr]> (cells s)))
                      (<[h := lr]> (handles s)))).
Proof.
  intros Hs. pose proof (reachable_counted s Hs) as Hinv.
  pose proof Hinv as (H1 & H2 & H3).
  split; [split; [done|]|split; [|split; [|split]]].
  - intros l d Hd. destruct (H2 _ _ Hd) as [Hd' Hpos].
    split; [done | by apply aliases_pos].
  - intros h v Hh Hroom. exists (fresh (dom (cells s))).
    split; [apply not_elem_of_dom, is_fresh|].
    unfold construct. by rewrite Hh, Hroom.
  - intros h r l Hh Hr Hroom. destruct (H1 _ _ Hr) as [d Hd].
    pose proof (count_fits _ _ _ Hinv Hd) as Hfit.
    destruct (H2 _ _ Hd) as [Hc _].
    pose proof (aliases_le_size l (handles s)) as Hle.
    unfold has_room in Hroom. apply Z.ltb_lt in Hroom.
    exists d. split; [done|].
    unfold copy, inc_ref, has_room. rewrite Hh, Hr.
    destruct (Z.ltb_spec (Z.of_nat (size (handles s))) size_max); [|lia].
    simpl. rewrite Hd. unfold count_up. by rewrite wrap_small by lia.
  - intros h l Hh. destruct (H1 _ _ Hh) as [d Hd].
    pose proof (count_fits _ _ _ Hinv Hd) as Hfit.
    exists d. split; [done|].
    unfold destroy, dec_ref, released. rewrite Hh. simpl. rewrite Hd.
    rewrite wrap_small by lia.
    destruct (Z.eqb_spec (m_ref_count d - 1) 0);
      [rewrite decide_True by lia | rewrite decide_False by lia]; done.
  - intros h r lh lr Hh Hr.
    destruct (H1 _ _ Hh) as [dh Hdh]. destruct (H1 _ _ Hr) as [dr Hdr].
    pose proof (count_fits _ _ _ Hinv Hdh) as Hfh.
    pose proof (count_fits _ _ _ Hinv Hdr) as Hfr.
    exists dh, dr. split; [done | split; [done|]].
    unfold assign, inc_ref. rewrite Hh, Hr, Hdr. simpl. unfold dec_ref. simpl.
    destruct (decide (lh = lr)) as [->|Hne].
    + rewrite lookup_insert_eq. simpl. simplify_eq.
      rewrite wrap_inc_dec by done.
      destruct (Z.eqb_spec (m_ref_count dh) 0) as [|_]; [lia|]. simpl.
      rewrite insert_insert_eq, data_eta.
      rewrite (insert_id (cells s)), (insert_id (handles s)) by done.
      by destruct s.
    + rewrite lookup_insert_ne by done. rewrite Hdh.
      rewrite (wrap_small (m_ref_count dh - 1)) by lia.
      assert (wrap (m_ref_count dr + 1) = (m_ref_count dr + 1)%Z) as Hw.
      { destruct (H2 _ _ Hdr) as [Hcr _]. destruct (H2 _ _ Hdh) as [Hch Hph].
        pose proof (aliases_move lr h lh lr (handles s) Hh Hne) as Hmv.
        rewrite decide_True in Hmv by done.
        pose proof (aliases_le_size lr (<[h := lr]> (handles s))) as Hle.
        rewrite map_size_insert_Some in Hle by eauto.
        apply wrap_small. lia. }
      rewrite Hw. unfold released, count_up.
      destruct (Z.eqb_spec (m_ref_count dh - 1) 0);
        [rewrite decide_True by lia | rewrite decide_False by lia]; done.
Qed.

End Storage.

(** Two handles of one future, a self-assignment, and their destruction. *)
Example handles_of_one_future :
  apply_all [Construct 1 0%Z; Copy 2 1; Assign 1 1; Assign 2 1; Destroy 1;
       SetValue 2 42%Z]
    empty =
  Done (mk_store {[0 := mk_data 1 42%Z true]} {[2 := 0]}) /\
  apply_all [Construct 1 0%Z; Copy 2 1; Destroy 1; Destroy 2] (@empty Z) = Done empty.
Proof. split; vm_compute; reflexivity. Qed.

(** *** More on the handles: assignment, isolation, the future of a put *)

Section Lifetime.
Context {R : Type}.
Local Abbreviation data := (@Result.data R) (only parsing).
Local Abbreviation store := (@Result.store R) (only parsing).
Local Abbreviation op := (@Result.op R) (only parsing).

(** X4 (assignment between aliases): assignment between two handles of one
    future, self-assignment included, changes nothing: [inc_ref] comes
    before [dec_ref], so the count never reaches 0 on the way. *)
Theorem assign_between_aliases (s : store) (h r l : nat) :
  reachable s ->
  handles s !! h = Some l -> handles s !! r = Some l ->
  exists s', assign h r s = Done s' /\
    handles s' = handles s /\
    (forall l', cells s' !! l' = cells s !! l').
Proof.
  intros Hs Hh Hr. pose proof (reachable_counted s Hs) as Hinv.
  pose proof Hinv as (H1 & _). destruct (H1 _ _ Hh) as [d Hd].
  pose proof (count_fits _ _ _ Hinv Hd) as Hfit.
  unfold assign, inc_ref. rewrite Hh, Hr, Hd. simpl. unfold dec_ref. simpl.
  rewrite lookup_insert_eq. simpl. rewrite wrap_inc_dec by done.
  destruct (Z.eqb_spec (m_ref_count d) 0) as [|_]; [lia|]. simpl.
  eexists. split; [done|]. simpl. split; [by apply insert_id|].
  intros l'. destruct (decide (l' = l)) as [->|Hne].
  - by rewrite lookup_insert_eq, data_eta.
  - by rewrite !lookup_insert_ne.
Qed.

(** X5 (assignment from another future): the target becomes a handle
    of the source's future and reads what the source reads, and the future
    it leaves is deleted exactly when the target was its last handle. *)
Theorem assign_retargets (s : store) (h r lh lr : nat) :
  reachable s ->
  handles s !! h = Some lh -> handles s !! r = Some lr -> lh <> lr ->
  exists s', assign h r s = Done s' /\
    handles s' = <[h := lr]> (handles s) /\
    get h s' = get r s /\
    (cells s' !! lh = None <-> aliases lh (handles s) = 1).
Proof.
  intros Hs Hh Hr Hne. pose proof (reachable_counted s Hs) as Hinv.
  pose proof Hinv as (H1 & H2 & H3).
  destruct (H1 _ _ Hr) as [dr Hdr]. destruct (H1 _ _ Hh) as [dh Hdh].
  pose proof (count_fits _ _ _ Hinv Hdh) as Hfh.
  destruct (H2 _ _ Hdh) as [Hch _].
  unfold assign, inc_ref. rewrite Hh, Hr, Hdr. simpl. unfold dec_ref. simpl.
  rewrite lookup_insert_ne by done. rewrite Hdh.
  rewrite (wrap_small (m_ref_count dh - 1)) by lia.
  unfold get. rewrite Hr, Hdr.
  destruct (Z.eqb_spec (m_ref_count dh - 1) 0) as [Hz|Hnz]; simpl;
    (eexists; split; [done|]; simpl; split; [done|]; split).
  - by rewrite lookup_insert_eq, lookup_delete_ne, lookup_insert_eq.
  - rewrite lookup_delete_eq. split; [lia | done].
  - by rewrite lookup_insert_eq, lookup_insert_ne, lookup_insert_eq.
  - rewrite lookup_insert_eq. split; [done | lia].
Qed.

Lemma bookkeeping_keeps_values (s s' : store) (o : op) (l : nat) (d d' : data) :
  apply o s = Done s' -> is_set o = false ->
  cells s !! l = Some d -> cells s' !! l = Some d' ->
  m_value d' = m_value d /\ m_value_set d' = m_value_set d.
Proof.
  intros Ho Hset Hd Hd'.
  destruct o as [h v|h r|h|h r|h v]; [| | | |done]; simpl in Ho.
  - unfold construct in Ho.
    repeat match type of Ho with
           | context [match ?x with _ => _ end] => destruct x eqn:?
           end; simplify_eq. simpl in Hd'.
    rewrite lookup_insert_ne in Hd'; [by simplify_eq|].
    intros <-. pose proof (is_fresh (dom (cells s))) as Hf.
    apply not_elem_of_dom in Hf. congruence.
  - unfold copy, inc_ref in Ho. simpl in Ho.
    repeat match type of Ho with
           | context [match ?x with _ => _ end] => destruct x eqn:?
           end; simplify_eq. simpl in Hd'.
    rewrite lookup_insert in Hd'. case_decide; simplify_eq; done.
  - unfold destroy, dec_ref in Ho. simpl in Ho.
    repeat match type of Ho with
           | context [match ?x with _ => _ end] => destruct x eqn:?
           end; simplify_eq; simpl in Hd'.
    + rewrite lookup_delete in Hd'. case_decide; simplify_eq; done.
    + rewrite lookup_insert in Hd'. case_decide; simplify_eq; done.
  - unfold assign, inc_ref in Ho.
    destruct (handles s !! h) as [lh|]; [|done].
    destruct (handles s !! r) as [lr|]; [|done].
    destruct (cells s !! lr) as [dr|] eqn:Hdr; [|done].
    simpl in Ho. unfold dec_ref in Ho. simpl in Ho.
    destruct (<[lr:=_]> (cells s) !! lh) as [dh|] eqn:Hdh; [|done].
    destruct (wrap (m_ref_count dh - 1) =? 0)%Z; simpl in Ho; simplify_eq;
      simpl in Hd'.
    + rewrite lookup_delete in Hd'. case_decide; [done|].
      rewrite lookup_insert in Hd'. case_decide; simplify_eq; done.
    + rewrite lookup_insert in Hd'. case_decide; simplify_eq.
      * rewrite lookup_insert in Hdh. case_decide; simplify_eq; done.
      * rewrite lookup_insert in Hd'. case_decide; simplify_eq; done.
Qed.

(** X6 (what a handle reads): what a handle reads changes only by a [set]
    through a handle of the same future: constructions, copies,
    destructions and assignments of other handles, and sets of other
    futures, leave it as it is. *)
Theorem get_changes_only_by_set (s s' : store) (o : op) (k l : nat) :
  reachable s -> apply o s = Done s' ->
  handles s !! k = Some l -> handles s' !! k = Some l ->
  get k s' =
    match o with
    | SetValue h v =>
        if decide (handles s !! h = Some l) then Done (Some v) else get k s
    | _ => get k s
    end.
Proof.
  intros Hs Ho Hk Hk'.
  pose proof (reachable_counted s Hs) as (H1 & _).
  pose proof (reachable_counted s' (reachable_apply _ _ _ Hs Ho)) as (H1' & _).
  destruct (H1 _ _ Hk) as [d Hd]. destruct (H1' _ _ Hk') as [d' Hd'].
  unfold get at 1. rewrite Hk', Hd'.
  assert (Hget : get k s = Done (if m_value_set d then Some (m_value d) else None))
    by (unfold get; by rewrite Hk, Hd).
  destruct (is_set o) eqn:Hset.
  - destruct o as [| | | |h v]; try done. simpl in Ho. unfold set in Ho.
    destruct (handles s !! h) as [lh|] eqn:Hh; [|done].
    destruct (cells s !! lh) as [dh|] eqn:Hdh; [|done]. simplify_eq.
    simpl in Hd'. rewrite lookup_insert in Hd'.
    destruct (decide (lh = l)) as [->|Hne]; simplify_eq.
    + by rewrite decide_True.
    + rewrite decide_False by congruence. by rewrite Hget.
  - destruct (bookkeeping_keeps_values _ _ _ _ _ _ Ho Hset Hd Hd') as [-> ->].
    rewrite Hget. by destruct o.
Qed.

End Lifetime.

Section PutLifetime.
Context {R : Type}.
Local Abbreviation data := (@Result.data R) (only parsing).
Local Abbreviation store := (@Result.store R) (only parsing).
Local Abbreviation op := (@Result.op R) (only parsing).

Lemma size_insert_le (k x n : nat) (m : gmap nat nat) :
  size m <= n -> size (<[k := x]> m) <= S n.
Proof. rewrite map_size_insert. destruct (m !! k); simpl; lia. Qed.

Lemma size_delete_le (k n : nat) (m : gmap nat nat) :
  size m <= n -> size (delete k m) <= n.
Proof. rewrite map_size_delete. destruct (m !! k); simpl; lia. Qed.

Lemma has_room_le (cs : gmap nat data) (hs hs' : gmap nat nat) :
  (Z.of_nat (size hs) + 2 < size_max)%Z ->
  size hs' <= S (S (size hs)) ->
  has_room (mk_store cs hs') = true.
Proof. intros Hb Hle. unfold has_room. simpl. apply Z.ltb_lt. lia. Qed.

Ltac size_le :=
  first [ lia
        | apply size_delete_le; size_le
        | apply size_insert_le; size_le ].

Ltac lookups :=
  repeat first
    [ rewrite lookup_insert_eq
    | rewrite lookup_delete_eq
    | rewrite lookup_insert_ne by done
    | rewrite lookup_delete_ne by done ].

(** X7 (the future of a call): the future that [put] makes for one call
    lives as long as the message or the caller holds it, and no longer.
    Whatever the turns of the caller
    (who receives the returned handle) and of the worker (who executes and
    deletes the message), no operation touches deleted storage, the caller's
    [get] then finds the value of the call, and when the caller destroys its
    handle the store is as it was before [put]. *)
Theorem put_lifetime (s : store) (r m c : nat) (v0 v : R) (tr : list op) :
  handles s !! r = None -> handles s !! m = None -> handles s !! c = None ->
  r <> m -> r <> c -> m <> c ->
  (Z.of_nat (size (handles s)) + 2 < size_max)%Z ->
  tr ∈ interleave (put_returns r c) (worker_executes m v) ->
  exists s1,
    apply_all (put_prepares r m v0 ++ tr) s = Done s1 /\
    get c s1 = Done (Some v) /\
    destroy c s1 = Done s.
Proof.
  destruct s as [cs hs]. simpl. intros Hr Hm Hc Hrm Hrc Hmc Hroom Htr.
  set (l := fresh (dom cs)).
  assert (Hl : cs !! l = None) by apply not_elem_of_dom, is_fresh.
  assert (Hroom0 : forall cs' hs', size hs' <= S (S (size hs)) ->
            has_room (mk_store cs' hs') = true)
    by (intros; by eapply has_room_le).
  unfold put_returns, worker_executes in Htr. simpl in Htr.
  repeat (apply elem_of_cons in Htr as [-> | Htr]);
    [..| by apply elem_of_nil in Htr].
  all: unfold put_prepares, apply_all, apply; simpl;
    unfold construct; simpl; rewrite Hr; rewrite Hroom0 by size_le; simpl.
  all: fold l.
  all: repeat first
         [ progress (unfold copy, destroy, set, inc_ref, dec_ref; simpl)
         | progress lookups
         | rewrite Hm | rewrite Hc
         | rewrite Hroom0 by size_le
         | progress (simpl bind) ].
  all: eexists; (split; [reflexivity|]); unfold get; simpl; lookups; simpl;
    (split; [reflexivity|]);
    match goal with
    | |- Done (mk_store ?a ?b) = Done (mk_store ?a' ?b') =>
        cut (a = a' /\ b = b'); [by intros [-> ->] | split]
    end.
  all: apply map_eq; intros k.
  all: repeat (first [rewrite lookup_delete | rewrite lookup_insert];
               case_decide; subst); congruence.
Qed.

End PutLifetime.

Lemma two_handles_reachable : reachable two_handles.
Proof. exists [Construct 1 0%Z; Copy 2 1]. vm_compute. reflexivity. Defined.

Lemma three_handles_reachable : reachable three_handles.
Proof.
  exists [Construct 1 0%Z; Copy 2 1; Construct 3 5%Z; SetValue 3 5%Z].
  vm_compute. reflexivity.
Defined.

Lemma ref_count_is_handle_count_witness :
  exists d, cells two_handles !! 0 = Some d /\
    destroy 1 two_handles =
      Done (mk_store (released 0 d (cells two_handles))
              (delete 1 (handles two_handles))).
Proof.
  exact (proj1 (proj2 (proj2 (proj2
           (ref_count_is_handle_count two_handles two_handles_reachable))))
           1 0 eq_refl).
Defined.

Lemma assign_between_aliases_witness :
  exists s', assign 1 2 two_handles = Done s' /\
    handles s' = handles two_handles /\
    (forall l', cells s' !! l' = cells two_handles !! l').
Proof.
  refine (assign_between_aliases two_handles 1 2 0 two_handles_reachable _ _);
    reflexivity.
Defined.

Lemma assign_retargets_witness :
  exists s', assign 1 3 three_handles = Done s' /\
    handles s' = <[1 := 1]> (handles three_handles) /\
    get 1 s' = get 3 three_handles /\
    (cells s' !! 0 = None <-> aliases 0 (handles three_handles) = 1).
Proof.
  refine (assign_retargets three_handles 1 3 0 1 three_handles_reachable _ _ _);
    [reflexivity | reflexivity | discriminate].
Defined.

Lemma get_changes_only_by_set_witness :
  get 2 two_handles_set = Done (Some 42%Z).
Proof.
  refine (get_changes_only_by_set two_handles two_handles_set
            (SetValue 1 42%Z) 2 0 two_handles_reachable _ _ _);
    reflexivity.
Defined.

Lemma put_lifetime_witness :
  exists s1,
    apply_all (put_prepares 1 2 0%Z ++
               [Copy 3 1; SetValue 2 42%Z; Destroy 1; Destroy 2])
      Result.empty = Done s1 /\
    get 3 s1 = Done (Some 42%Z) /\
    destroy 3 s1 = Done Result.empty.
Proof.
  refine (put_lifetime Result.empty 1 2 3 0%Z 42%Z _ _ _ _ _ _ _ _ _);
    try reflexivity; try discriminate.
  apply list_elem_of_In. simpl. tauto.
Defined.

End ResultFacts.

(** ** Waiting for the value of a future *)

Module FutureFacts.
Import Future.

Section Protocol.
Context {R : Type}.
Local Abbreviation pc := (@Future.pc R) (only parsing).
Local Abbreviation future := (@Future.future R) (only parsing).
Local Abbreviation event := (@Future.event R) (only parsing).

(** *** The flag and the waiters *)

Ltac step_inv H :=
  unfold step, next, lock, unlock, wake, cond_wait, set_pc in H;
  repeat match type of H with
         | context [match ?x with _ => _ end] => destruct x eqn:?
         end;
  simplify_eq.

Lemma flag_monotone_step (s s' : future) (e : event) :
  step s e = Some s' ->
  Result.m_value_set (cell s) = true -> Result.m_value_set (cell s') = true.
Proof. intros He Hf. step_inv He; simpl; done. Qed.

Lemma waiting_insert (s : future) (t u : nat) (p : pc) c m q :
  waiting (mk_future c m q (<[u := p]> (threads s))) t =
    if decide (u = t) then
      match p with GetWait | GetWoken => true | _ => false end
    else waiting s t.
Proof.
  unfold waiting. simpl. rewrite lookup_insert.
  destruct (decide (u = t)); done.
Qed.

Lemma never_waits_step (s s' : future) (e : event) (t : nat) :
  step s e = Some s' ->
  Result.m_value_set (cell s) = true -> waiting s t = false ->
  waiting s' t = false.
Proof.
  intros He Hf Hw. step_inv He; rewrite ?waiting_insert;
    repeat case_decide; subst; try done; try congruence.
  all: unfold waiting, is_blocked in *; simpl in *;
    repeat match goal with
           | H : context [<[?a := _]> _ !! ?b] |- _ =>
               rewrite lookup_insert in H; case_decide; subst
           end;
    repeat case_match; simplify_eq; try done;
    repeat match goal with H : _ && _ = true |- _ => apply andb_prop in H as [? ?] end;
    try done.
Qed.

Lemma flag_monotone_steps (tr : list event) (s s' : future) (t : nat) :
  steps tr s = Some s' ->
  Result.m_value_set (cell s) = true -> waiting s t = false ->
  Result.m_value_set (cell s') = true /\ waiting s' t = false.
Proof.
  revert s. induction tr as [|e tr IH]; simpl; intros s Hr Hf Hw.
  - by simplify_eq.
  - destruct (step s e) as [s1|] eqn:He; [|done].
    eauto using flag_monotone_step, never_waits_step.
Qed.

Lemma get_call_steps (s : future) (t : nat) :
  Result.m_value_set (cell s) = true ->
  is_idle (threads s !! t) = true -> m_mutex s = None ->
  exists s', steps (get_call t) s = Some s' /\
    threads s' !! t = Some (GetDone (Result.m_value (cell s))) /\
    cell s' = cell s /\ m_cond s' = m_cond s /\ m_mutex s' = None.
Proof.
  intros Hf Hi Hm. unfold get_call, steps, step. rewrite Hi.
  unfold next at 1. simpl. rewrite lookup_insert_eq.
  unfold lock. simpl. rewrite Hm.
  unfold next at 1. simpl. rewrite lookup_insert_eq, Hf.
  unfold next at 1. simpl. rewrite lookup_insert_eq.
  unfold next at 1. simpl. rewrite lookup_insert_eq.
  eexists. split; [done|]. simpl. by rewrite lookup_insert_eq.
Qed.

Lemma set_seen_step (s s' : future) (e : event) :
  is_spurious e = false -> step s e = Some s' -> set_seen s -> set_seen s'.
Proof.
  intros Hsp He Hinv u p Hu Hp.
  step_inv He; simpl in *; try done;
    repeat match goal with
           | H : context [<[?a := _]> _ !! ?b] |- _ =>
               rewrite lookup_insert in H; case_decide; subst
           end;
    simplify_eq; try done;
    match goal with
    | H : threads s !! _ = Some ?q |- _ => by apply (Hinv _ q H)
    end.
Qed.

Lemma set_seen_steps (tr : list event) (s s' : future) :
  forallb (fun e => negb (is_spurious e)) tr = true ->
  steps tr s = Some s' -> set_seen s -> set_seen s'.
Proof.
  revert s. induction tr as [|e tr IH]; simpl; intros s Hsp Hr Hs.
  - by simplify_eq.
  - apply andb_prop in Hsp as [He Htr]. apply negb_true_iff in He.
    destruct (step s e) as [s1|] eqn:Hs1; [|done].
    eauto using set_seen_step.
Qed.

(** Without spurious wake-ups, [get] returns only after [set]. *)
Lemma get_waits_for_set_without_spurious (tr : list event) (d r : R)
    (s : future) (t : nat) :
  forallb (fun e => negb (is_spurious e)) tr = true ->
  steps tr (init d) = Some s ->
  threads s !! t = Some (GetDone r) ->
  Result.m_value_set (cell s) = true.
Proof.
  intros Hsp Hr Ht. eapply (set_seen_steps tr (init d) s Hsp Hr); [|exact Ht|done].
  intros u p Hu. simpl in Hu. by rewrite lookup_empty in Hu.
Qed.

Lemma future_steps_app (tr1 tr2 : list event) (s : future) :
  steps (tr1 ++ tr2) s = steps tr1 s ≫= steps tr2.
Proof.
  revert s. induction tr1 as [|e tr1 IH]; simpl; intros s; [done|].
  destruct (step s e); simpl; [apply IH | done].
Qed.

Lemma set_then_get (s : future) (t u : nat) (v : R) :
  threads s !! t = Some (SetWrite v) ->
  is_idle (threads s !! u) = true ->
  exists s', steps ([Step t; Step t] ++ get_call u) s = Some s' /\
    threads s' !! u = Some (GetDone v).
Proof.
  intros Ht Hu.
  assert (Hne : t <> u) by (intros ->; by rewrite Ht in Hu).
  rewrite future_steps_app. unfold steps at 2, step, next. rewrite Ht. simpl.
  rewrite lookup_insert_eq. simpl.
  edestruct (get_call_steps
               (unlock t SetSignal
                  (mk_future (Result.data_set v (cell s)) (m_mutex s) (m_cond s)
                     (<[t := SetUnlock]> (threads s)))) u)
    as (s' & Hr & Hp & _); [done | | done |].
  - simpl. by rewrite !lookup_insert_ne.
  - exists s'. split; [exact Hr | exact Hp].
Qed.

(** [pthread_cond_signal] as the code uses it unblocks the one thread it
    picks: every other blocked thread stays blocked. *)
Lemma signal_unblocks_one (s s' : future) (t w u : nat) :
  step s (Signal t (Some w)) = Some s' ->
  u <> w -> threads s !! u = Some GetWait ->
  threads s' !! u = Some GetWait.
Proof.
  intros He Hw Hu.
  assert (Ht : t <> u).
  { intros ->. unfold step in He. by rewrite Hu in He. }
  step_inv He; simpl. by rewrite !lookup_insert_ne.
Qed.

(** *** The claims on get and set *)

(** C7: once the value is set it stays set, and a thread that is not
    suspended in [get] is never suspended in [get] afterwards, whatever the
    threads do; a call of [get] made then, with the mutex free, returns the
    stored value in four steps, none of them the wait. *)
Theorem get_of_set_value_does_not_wait (s : future) (t : nat) :
  Result.m_value_set (cell s) = true ->
  waiting s t = false ->
  (forall tr s', steps tr s = Some s' ->
     Result.m_value_set (cell s') = true /\ waiting s' t = false) /\
  (is_idle (threads s !! t) = true -> m_mutex s = None ->
     exists s', steps (get_call t) s = Some s' /\
       threads s' !! t = Some (GetDone (Result.m_value (cell s))) /\
       m_cond s' = m_cond s).
Proof.
  intros Hf Hw. split.
  - intros tr s' Hr. by eapply flag_monotone_steps.
  - intros Hi Hm. destruct (get_call_steps s t Hf Hi Hm) as (s' & ? & ? & ? & ? & ?).
    eauto.
Qed.

(** C6 on the code: a thread calls [get] on a future that is never set, is
    blocked in [pthread_cond_wait], wakes up without a signal and, the test
    of line 133 being an [if], returns the default value. *)
Theorem get_returns_default_on_spurious_wakeup (d : R) :
  exists s,
    steps [CallGet 1; Step 1; Step 1; Spurious 1; Step 1; Step 1; Step 1] (init d)
      = Some s /\
    threads s !! 1 = Some (GetDone d) /\
    Result.m_value_set (cell s) = false.
Proof. eexists. split; [vm_compute; reflexivity | split; reflexivity]. Qed.

(** C2 on the code: threads 1 and 2 are blocked in [get] when thread 3 calls
    [set(v)]; its [pthread_cond_signal] unblocks thread 1, which returns
    [v]; thread 2 stays blocked although the value is set, and no thread can
    take a step or signal any more. *)
Theorem signal_leaves_second_waiter_blocked (d v : R) :
  exists s,
    steps [CallGet 1; Step 1; Step 1; CallGet 2; Step 2; Step 2;
         CallSet 3 v; Step 3; Step 3; Step 3; Signal 3 (Some 1);
         Step 1; Step 1; Step 1] (init d) = Some s /\
    threads s !! 1 = Some (GetDone v) /\
    threads s !! 2 = Some GetWait /\
    threads s !! 3 = Some SetDone /\
    Result.m_value_set (cell s) = true /\
    (forall t, step s (Step t) = None) /\
    (forall t w, step s (Signal t w) = None).
Proof.
  exists (mk_future (Result.mk_data 1 v true) None [2]
            (<[1 := GetDone v]> (<[2 := GetWait]> (<[3 := SetDone]> ∅)))).
  split; [vm_compute; reflexivity|].
  repeat split; try reflexivity.
  - intros t. unfold step, next. simpl.
    rewrite !lookup_insert, lookup_empty. by repeat case_decide.
  - intros t w. unfold step. simpl.
    rewrite !lookup_insert, lookup_empty. by repeat case_decide.
Qed.

End Protocol.

Lemma get_of_set_value_does_not_wait_witness :
  exists s', steps (get_call 2) set_42 = Some s' /\
    threads s' !! 2 = Some (GetDone 42%Z) /\ m_cond s' = m_cond set_42.
Proof.
  refine (proj2 (get_of_set_value_does_not_wait set_42 2 _ _) _ _);
    reflexivity.
Defined.

Example set_42_reached :
  steps [CallSet 1 42%Z; Step 1; Step 1; Step 1; Signal 1 None] (init 0%Z)
    = Some set_42.
Proof. vm_compute. reflexivity. Qed.

(** *** More on get and set: the mutex, progress, the values returned *)

Section Discipline.
Context {R : Type}.
Local Abbreviation pc := (@Future.pc R) (only parsing).
Local Abbreviation future := (@Future.future R) (only parsing).
Local Abbreviation event := (@Future.event R) (only parsing).

Ltac step_cases H :=
  unfold step, next, lock, unlock, wake, cond_wait, set_pc in H;
  repeat match type of H with
         | context [match ?x with _ => _ end] => destruct x eqn:?
         end;
  simplify_eq.

Ltac pc_side :=
  unfold cs_of;
  first [ done
        | match goal with
          | H : threads _ !! _ = _ |- _ => rewrite H; done
          end
        | match goal with
          | H : is_idle (threads ?s !! ?t) = true |- _ =>
              by destruct (threads s !! t) as [[]|]
          end ].

Lemma lock_inv_out (s : future) (u : nat) (pu : pc) c q :
  lock_inv s -> cs_of (threads s !! u) = false -> in_cs pu = false ->
  lock_inv (mk_future c (m_mutex s) q (<[u := pu]> (threads s))).
Proof.
  intros Hl Hu Hp t. simpl. rewrite lookup_insert.
  destruct (decide (u = t)) as [->|Hne]; [|apply Hl].
  split.
  - intros Hm. apply Hl in Hm as (p & Hp' & Hcs).
    unfold cs_of in Hu. rewrite Hp' in Hu. congruence.
  - intros (p & ? & ?). simplify_eq. congruence.
Qed.

Lemma lock_inv_enter (s : future) (u : nat) (pu : pc) c q :
  lock_inv s -> m_mutex s = None -> in_cs pu = true ->
  lock_inv (mk_future c (Some u) q (<[u := pu]> (threads s))).
Proof.
  intros Hl Hm Hp t. simpl. rewrite lookup_insert.
  destruct (decide (u = t)) as [->|Hne]; [by split; eauto|].
  split; [congruence|]. intros Ht. apply Hl in Ht. congruence.
Qed.

Lemma lock_inv_in (s : future) (u : nat) (pu : pc) c q :
  lock_inv s -> cs_of (threads s !! u) = true -> in_cs pu = true ->
  lock_inv (mk_future c (m_mutex s) q (<[u := pu]> (threads s))).
Proof.
  intros Hl Hu Hp t. simpl. rewrite lookup_insert.
  destruct (decide (u = t)) as [->|Hne]; [|apply Hl].
  split; [by eauto|]. intros _. apply Hl.
  unfold cs_of in Hu. destruct (threads s !! t); [eauto | done].
Qed.

Lemma lock_inv_leave (s : future) (u : nat) (pu : pc) c q :
  lock_inv s -> cs_of (threads s !! u) = true -> in_cs pu = false ->
  lock_inv (mk_future c None q (<[u := pu]> (threads s))).
Proof.
  intros Hl Hu Hp t. simpl. rewrite lookup_insert.
  destruct (decide (u = t)) as [->|Hne].
  - split; [done|]. intros (p & ? & ?). simplify_eq. congruence.
  - split; [done|]. intros Ht. apply Hl in Ht.
    unfold cs_of in Hu. destruct (threads s !! u) as [p|] eqn:Hpu; [|done].
    assert (m_mutex s = Some u) by (apply Hl; eauto). congruence.
Qed.

Lemma cs_of_blocked (o : option pc) : is_blocked o = true -> cs_of o = false.
Proof. by destruct o as [[]|]. Qed.

Lemma lock_inv_step (s s' : future) (e : event) :
  step s e = Some s' -> lock_inv s -> lock_inv s'.
Proof.
  intros He Hl. step_cases He.
  all: try match goal with
           | H : _ && _ = true |- _ => apply andb_prop in H as [_ ?%cs_of_blocked]
           end.
  all: try first [ (apply lock_inv_out; solve [ done | pc_side ])
                 | (apply lock_inv_enter; solve [ done | pc_side ])
                 | (apply lock_inv_in; solve [ done | pc_side ])
                 | (apply lock_inv_leave; solve [ done | pc_side ]) ].
  apply (lock_inv_out (set_pc t SetDone s)); [|done..].
  apply lock_inv_out; solve [ done | pc_side ].
Qed.

Lemma lock_inv_steps (tr : list event) (s s' : future) :
  steps tr s = Some s' -> lock_inv s -> lock_inv s'.
Proof.
  revert s. induction tr as [|e tr IH]; intros s H Hl; simpl in H.
  - by simplify_eq.
  - destruct (step s e) as [s1|] eqn:He; [|done].
    eauto using lock_inv_step.
Qed.

Lemma lock_inv_init (d : R) : lock_inv (init d).
Proof.
  intros t. simpl. split; [done|]. intros (p & Hp & _).
  by rewrite lookup_empty in Hp.
Qed.

Lemma wait_inv_keep (s : future) (u : nat) (pu : pc) c m :
  wait_inv s -> threads s !! u <> Some GetWait -> pu <> GetWait ->
  wait_inv (mk_future c m (m_cond s) (<[u := pu]> (threads s))).
Proof.
  intros Hw Hu Hp t. simpl. rewrite lookup_insert.
  destruct (decide (u = t)) as [->|Hne]; [|apply Hw].
  split; [by intros ?%Hw | congruence].
Qed.

Lemma wait_inv_wait (s : future) (u : nat) c m :
  wait_inv s ->
  wait_inv (mk_future c m (m_cond s ++ [u]) (<[u := GetWait]> (threads s))).
Proof.
  intros Hw t. simpl. rewrite lookup_insert, elem_of_app, list_elem_of_singleton.
  destruct (decide (u = t)) as [->|Hne]; [by split; eauto|].
  rewrite (Hw t). split; [by intros [?|?] | by left].
Qed.

Lemma wait_inv_wake (s : future) (w : nat) c m :
  wait_inv s ->
  wait_inv (mk_future c m (filter (fun u => u <> w) (m_cond s))
              (<[w := GetWoken]> (threads s))).
Proof.
  intros Hw t. simpl. rewrite lookup_insert, list_elem_of_filter.
  destruct (decide (w = t)) as [->|Hne]; [by split; [intros []|]|].
  rewrite (Hw t). split; [by intros [] | by split].
Qed.

Ltac not_waiting :=
  first [ done
        | congruence
        | match goal with
          | H : is_idle (threads ?s !! ?t) = true |- _ =>
              by destruct (threads s !! t) as [[]|]
          end ].

Lemma wait_inv_step (s s' : future) (e : event) :
  step s e = Some s' -> wait_inv s -> wait_inv s'.
Proof.
  intros He Hw. step_cases He.
  all: try match goal with H : m_cond _ = [] |- _ => rewrite <- H end.
  all: try first [ (apply wait_inv_keep; solve [ done | not_waiting ])
                 | (by apply wait_inv_wait)
                 | (by apply wait_inv_wake) ].
  apply (wait_inv_wake (set_pc t SetDone s)).
  apply wait_inv_keep; solve [ done | not_waiting ].
Qed.

Lemma wait_inv_steps (tr : list event) (s s' : future) :
  steps tr s = Some s' -> wait_inv s -> wait_inv s'.
Proof.
  revert s. induction tr as [|e tr IH]; intros s H Hl; simpl in H.
  - by simplify_eq.
  - destruct (step s e) as [s1|] eqn:He; [|done].
    eauto using wait_inv_step.
Qed.

Lemma wait_inv_init (d : R) : wait_inv (init d).
Proof.
  intros t. simpl. rewrite lookup_empty. split; [|done].
  by intros ?%elem_of_nil.
Qed.

Lemma in_cs_steps (s : future) (t : nat) (p : pc) :
  threads s !! t = Some p -> in_cs p = true ->
  exists s', step s (Step t) = Some s'.
Proof.
  intros Hp Hcs. simpl. unfold next. rewrite Hp.
  destruct p; try done; eauto.
  destruct (Result.m_value_set (cell s)); eauto.
Qed.

Lemma mutex_steps (s : future) (t : nat) (p : pc) :
  lock_inv s -> threads s !! t = Some p ->
  (exists q, next t s = lock t q s) ->
  exists e s', step s e = Some s' /\ is_progress e = true.
Proof.
  intros Hl Hp [q Hq]. destruct (m_mutex s) as [u|] eqn:Hm.
  - apply Hl in Hm as (pu & Hu & Hcs).
    destruct (in_cs_steps s u pu Hu Hcs) as [s' Hs']. by exists (Step u), s'.
  - exists (Step t). simpl. rewrite Hq. unfold lock. rewrite Hm. eauto.
Qed.

(** X8 (mutual exclusion): in every state of a future a thread that is
    between the lock and the unlock of [get] or of [set] (and not blocked in
    the wait of line 133) holds the mutex, so two threads are never both
    there. *)
Theorem get_and_set_exclude_each_other (d : R) (s : future) :
  reachable d s ->
  (forall t p, threads s !! t = Some p -> in_cs p = true ->
     m_mutex s = Some t) /\
  (forall t u p q, threads s !! t = Some p -> threads s !! u = Some q ->
     in_cs p = true -> in_cs q = true -> t = u).
Proof.
  intros [tr Htr].
  assert (lock_inv s) as Hl by eauto using lock_inv_steps, lock_inv_init.
  assert (forall t p, threads s !! t = Some p -> in_cs p = true ->
            m_mutex s = Some t) as Hheld
    by (intros t p Ht Hp; apply Hl; eauto).
  split; [exact Hheld|].
  intros t u p q Ht Hu Hp Hq.
  pose proof (Hheld _ _ Ht Hp). pose proof (Hheld _ _ Hu Hq). congruence.
Qed.

(** X9 (progress): in every state of a future, if some thread is inside
    [get] or [set] and is not blocked in the wait of line 133, then a step
    of one of the calls in progress is possible: the calls never block each
    other for good, the only thread that can stay blocked is one that waits
    for the value. *)
Theorem calls_make_progress (d : R) (s : future) (t : nat) (p : pc) :
  reachable d s ->
  threads s !! t = Some p -> is_idle (Some p) = false -> p <> GetWait ->
  exists e s', step s e = Some s' /\ is_progress e = true.
Proof.
  intros [tr Htr] Hp Hidle Hwait.
  assert (lock_inv s) as Hl by eauto using lock_inv_steps, lock_inv_init.
  assert (wait_inv s) as Hw by eauto using wait_inv_steps, wait_inv_init.
  destruct (in_cs p) eqn:Hcs.
  { destruct (in_cs_steps s t p Hp Hcs) as [s' Hs']. by exists (Step t), s'. }
  destruct p; try done.
  1-3: apply (mutex_steps s t _ Hl Hp); unfold next; rewrite Hp; eauto.
  destruct (m_cond s) as [|w q] eqn:Hq.
  - exists (Signal t None). simpl. rewrite Hp, Hq. eauto.
  - assert (threads s !! w = Some GetWait) as Hpw
      by (apply Hw; rewrite Hq; apply elem_of_cons; by left).
    assert (t <> w) by congruence.
    exists (Signal t (Some w)). simpl. rewrite Hp. unfold wake, set_pc. simpl.
    rewrite Hq, lookup_insert_ne, Hpw by done.
    rewrite bool_decide_eq_true_2 by (apply elem_of_cons; by left).
    simpl. eauto.
Qed.

(** X10 (set wakes a blocked get): when a thread is blocked in [get], the
    mutex is free and another thread calls [set(v)], the signal of line 145
    unblocks the waiting thread, whose [get] then returns [v]. *)
Theorem set_wakes_blocked_get (s : future) (t u : nat) (v : R) :
  threads s !! u = Some GetWait -> u ∈ m_cond s -> m_mutex s = None ->
  is_idle (threads s !! t) = true ->
  exists s', steps (set_call t v (Some u) ++ get_resume u) s = Some s' /\
    threads s' !! u = Some (GetDone v) /\
    threads s' !! t = Some SetDone /\
    m_mutex s' = None /\
    m_cond s' = filter (fun w => w <> u) (m_cond s).
Proof.
  intros Hu Hq Hm Hidle.
  assert (t <> u) as Hne by (intros ->; by rewrite Hu in Hidle).
  unfold set_call, get_resume, steps, app, step.
  rewrite Hidle.
  unfold next at 1, set_pc, lock. cbn [threads m_mutex cell m_cond].
  rewrite lookup_insert_eq, Hm.
  unfold next at 1. cbn [threads m_mutex cell m_cond]. rewrite lookup_insert_eq.
  unfold next at 1, unlock. cbn [threads m_mutex cell m_cond].
  rewrite lookup_insert_eq.
  cbn [threads m_mutex cell m_cond]. rewrite lookup_insert_eq.
  unfold wake. cbn [threads m_mutex cell m_cond].
  rewrite !insert_insert_eq.
  rewrite (lookup_insert_ne _ t u) by done. rewrite Hu.
  rewrite bool_decide_eq_true_2 by done. cbn [andb is_blocked].
  unfold next at 1, lock. cbn [threads m_mutex cell m_cond].
  rewrite lookup_insert_eq.
  unfold next at 1, set_pc. cbn [threads m_mutex cell m_cond].
  rewrite lookup_insert_eq.
  unfold next at 1, unlock. cbn [threads m_mutex cell m_cond].
  rewrite lookup_insert_eq.
  eexists. split; [done|]. cbn [threads m_mutex cell m_cond].
  rewrite !insert_insert_eq, lookup_insert_eq.
  rewrite lookup_insert_ne, lookup_insert_eq by done. done.
Qed.

Lemma set_values_cons (e : event) (tr : list event) :
  set_values (e :: tr) = set_values [e] ++ set_values tr.
Proof. by destruct e. Qed.

Lemma vals_inv_weaken (b : bool) (vals vals' : list R) (s : future) :
  vals ⊆ vals' -> vals_inv b vals s -> vals_inv b vals' s.
Proof.
  intros Hsub [Hc Ht]. split; [by eauto|].
  intros t p Hp. specialize (Ht t p Hp). destruct p; eauto.
Qed.

Lemma vals_inv_step (b : bool) (vals : list R) (s s' : future) (e : event) :
  step s e = Some s' ->
  b = true \/ (is_spurious e = false /\ set_seen s) ->
  vals_inv b vals s -> vals_inv b (vals ++ set_values [e]) s'.
Proof.
  intros He Hg Hv.
  assert (forall t v, e = CallSet t v -> v ∈ vals ++ set_values [e]) as Hnew.
  { intros t v ->. apply elem_of_app. right. simpl. by left. }
  apply (vals_inv_weaken b vals (vals ++ set_values [e])) in Hv;
    [|by apply list_subseteq_app_l].
  revert Hv Hnew. generalize (vals ++ set_values [e]). clear vals.
  intros vals [Hc Ht] Hnew.
  assert (forall t, threads s !! t = Some GetRead ->
            Result.m_value (cell s) ∈ vals) as Hread.
  { intros t Hp. apply Hc. destruct Hg as [->|[_ Hseen]]; [done|].
    rewrite (Hseen t GetRead Hp); [apply orb_true_r | done]. }
  assert (forall u q, threads s !! u = Some q ->
            match q with
            | GetUnlock x | SetLock x | SetWrite x => x ∈ vals
            | _ => True
            end) as Hold.
  { intros u q Hq. specialize (Ht u q Hq). by destruct q. }
  step_cases He.
  all: split; cbn [cell threads m_mutex m_cond Result.data_set
                   Result.m_value Result.m_value_set];
    [ try match goal with
          | H : Result.m_value_set _ = _ |- _ => rewrite H
          end;
      first [ exact Hc
            | intros _;
              match goal with
              | H : threads _ !! ?u = Some ?q |- _ => exact (Hold u q H)
              end ]
    | intros t' p' Hp';
      repeat (rewrite lookup_insert in Hp'; case_decide; simplify_eq);
      first [ by apply (Ht _ _ Hp')
            | done
            | by apply (Hnew _ _ eq_refl)
            | by eapply Hread
            | match goal with
              | H : threads _ !! ?u = Some ?q |- _ => exact (Hold u q H)
              end ] ].
Qed.

Lemma vals_inv_steps (b : bool) (tr : list event) (vals : list R)
    (s s' : future) :
  steps tr s = Some s' ->
  b = true \/ (forallb (fun e => negb (is_spurious e)) tr = true /\ set_seen s) ->
  vals_inv b vals s -> vals_inv b (vals ++ set_values tr) s'.
Proof.
  revert vals s. induction tr as [|e tr IH]; intros vals s H Hg Hv.
  - simpl in H. simplify_eq. unfold set_values. simpl. by rewrite app_nil_r.
  - simpl in H. destruct (step s e) as [s1|] eqn:He; [|done].
    rewrite set_values_cons, app_assoc. apply (IH _ s1 H).
    + destruct Hg as [->|[Hns Hseen]]; [by left|right].
      simpl in Hns. apply andb_prop in Hns as [He' Hns].
      apply negb_true_iff in He'. eauto using set_seen_step.
    + apply (vals_inv_step b vals s s1 e He); [|done].
      destruct Hg as [->|[Hns Hseen]]; [by left|right].
      simpl in Hns. apply andb_prop in Hns as [He' Hns].
      by apply negb_true_iff in He'.
Qed.

(** X11 (what get returns): the value a [get] returns on a future is the
    default the future was constructed with or a value some thread has
    passed to [set] before; when no wake-up of [pthread_cond_wait] is
    spurious it is never the default, it is a value passed to [set]. *)
Theorem get_returns_a_set_value (d r : R) (tr : list event) (s : future)
    (t : nat) :
  steps tr (init d) = Some s ->
  threads s !! t = Some (GetDone r) ->
  r ∈ d :: set_values tr /\
  (forallb (fun e => negb (is_spurious e)) tr = true -> r ∈ set_values tr).
Proof.
  intros Htr Hp. split.
  - assert (vals_inv true ([d] ++ set_values tr) s) as [_ Hv].
    { apply (vals_inv_steps true tr [d] (init d) s Htr); [by left|].
      split; [intros _; simpl; by left|].
      intros u p Hu. simpl in Hu. by rewrite lookup_empty in Hu. }
    apply (Hv t _ Hp).
  - intros Hns.
    assert (vals_inv false ([] ++ set_values tr) s) as [_ Hv].
    { apply (vals_inv_steps false tr [] (init d) s Htr).
      - right. split; [done|]. intros u p Hu. simpl in Hu.
        by rewrite lookup_empty in Hu.
      - split; [done|]. intros u p Hu. simpl in Hu.
        by rewrite lookup_empty in Hu. }
    apply (Hv t _ Hp).
Qed.

End Discipline.

Lemma get_called_reachable : reachable 0%Z get_called.
Proof. exists [CallGet 1]. vm_compute. reflexivity. Defined.

Lemma get_and_set_exclude_each_other_witness :
  m_mutex get_testing = Some 1.
Proof.
  refine (proj1 (get_and_set_exclude_each_other 0%Z get_testing _)
            1 GetTest _ _); [|reflexivity..].
  exists [CallGet 1; Step 1]. vm_compute. reflexivity.
Defined.

Lemma calls_make_progress_witness :
  exists e s', step get_called e = Some s' /\ is_progress e = true.
Proof.
  refine (calls_make_progress 0%Z get_called 1 GetLock
            get_called_reachable _ _ _); [reflexivity | reflexivity | discriminate].
Defined.

Lemma set_wakes_blocked_get_witness :
  exists s',
    steps (set_call 2 42%Z (Some 1) ++ get_resume 1) one_waiter = Some s' /\
    threads s' !! 1 = Some (GetDone 42%Z) /\
    threads s' !! 2 = Some SetDone /\
    m_mutex s' = None /\
    m_cond s' = filter (fun w => w <> 1) (m_cond one_waiter).
Proof.
  refine (set_wakes_blocked_get one_waiter 2 1 42%Z _ _ _ _);
    try reflexivity.
  apply list_elem_of_In. simpl. tauto.
Defined.

Lemma get_returns_a_set_value_witness :
  42%Z ∈ 0%Z :: set_values (set_call 1 42%Z None ++ get_call 2) /\
  (forallb (fun e : @event Z => negb (is_spurious e))
     (set_call 1 42%Z None ++ get_call 2) = true ->
   42%Z ∈ set_values (set_call 1 42%Z None ++ get_call 2)).
Proof.
  refine (get_returns_a_set_value 0%Z 42%Z
            (set_call 1 42%Z None ++ get_call 2) set_42_got 2 _ _).
  - vm_compute. reflexivity.
  - reflexivity.
Defined.

End FutureFacts.

(** ** Enqueueing a call that returns a value *)

Module EnqueueFacts.
Import Enqueue.

Lemma handles_alias (R : Type) (s : @Result.store R) (h1 h2 l : nat)
    (d : @Result.data R) (v : R) :
  Result.handles s !! h1 = Some l -> Result.handles s !! h2 = Some l ->
  Result.cells s !! l = Some d ->
  exists s', Result.set h1 v s = Result.Done s' /\
    Result.get h2 s' = Result.Done (Some v).
Proof.
  intros H1 H2 Hd. unfold Result.set, Result.get. rewrite H1, Hd.
  eexists. split; [done|]. simpl. by rewrite H2, lookup_insert_eq.
Qed.

Lemma put_get_then_work (x : Z) :
  exists a0 a,
    steps (put_get 1 2 3) (init x) = Some a0 /\
    get 3 a0 = Result.Done None /\
    steps (replicate 4 (Mailbox Actor.Run)) a0 = Some a /\
    Actor.executed a = [Actor.Call (BoundGet 2)] /\
    get 3 a = Result.Done (Some x).
Proof.
  eexists _, _. split; [vm_compute; reflexivity|].
  split; [reflexivity|]. split; [vm_compute; reflexivity|].
  split; reflexivity.
Qed.

(** C5: [set(v)] through one handle makes [get()] through any handle of the
    same future return [v]; a [get] called once the setter has stored [v]
    and released the mutex returns [v]; and [integer::get()] on an integer
    of value [x] (42, say) yields a future on which the caller has to wait
    until the worker has executed the message, and whose [get()] then
    returns [x]. *)
Theorem set_get_round_trip :
  (forall (R : Type) (s : @Result.store R) (h1 h2 l : nat) (d : @Result.data R) (v : R),
     Result.handles s !! h1 = Some l -> Result.handles s !! h2 = Some l ->
     Result.cells s !! l = Some d ->
     exists s', Result.set h1 v s = Result.Done s' /\
       Result.get h2 s' = Result.Done (Some v)) /\
  (forall (R : Type) (s : @Future.future R) (t u : nat) (v : R),
     Future.threads s !! t = Some (Future.SetWrite v) ->
     Future.is_idle (Future.threads s !! u) = true ->
     exists s',
       Future.steps ([Future.Step t; Future.Step t] ++ Future.get_call u) s = Some s' /\
       Future.threads s' !! u = Some (Future.GetDone v)) /\
  (forall x : Z,
     exists a0 a,
       steps (put_get 1 2 3) (init x) = Some a0 /\
       get 3 a0 = Result.Done None /\
       steps (replicate 4 (Mailbox Actor.Run)) a0 = Some a /\
       Actor.executed a = [Actor.Call (BoundGet 2)] /\
       get 3 a = Result.Done (Some x)).
Proof.
  split; [exact handles_alias | split; [|exact put_get_then_work]].
  intros R s t u v. apply FutureFacts.set_then_get.
Qed.

Lemma set_get_round_trip_witness :
  exists s', Result.set 1 42%Z Result.two_handles = Result.Done s' /\
    Result.get 2 s' = Result.Done (Some 42%Z).
Proof.
  refine (proj1 set_get_round_trip Z Result.two_handles 1 2 0
            (Result.mk_data 2 0%Z false) 42%Z _ _ _); reflexivity.
Defined.

(** The scenario of the claim: the handler returns 42. *)
Example get_returns_42 :
  (steps (put_get 1 2 3 ++ replicate 4 (Mailbox Actor.Run)) (init 42%Z)
     ≫= fun a => Some (get 3 a)) = Some (Result.Done (Some 42%Z)).
Proof. vm_compute. reflexivity. Qed.

(** *** More on the integer of the example: a get sees the sets before it *)

Lemma mailbox_steps (tr : list (@Actor.event bound_call)) (a : integer) :
  steps (map Mailbox tr) a = Actor.steps tr a.
Proof.
  revert a. induction tr as [|e tr IH]; intros a; [done|].
  simpl. destruct (Actor.step a e); [apply IH | done].
Qed.

Lemma enqueue_steps_app (tr1 tr2 : list event) (a : integer) :
  steps (tr1 ++ tr2) a = steps tr1 a ≫= steps tr2.
Proof.
  revert a. induction tr1 as [|e tr1 IH]; intros a; [done|].
  simpl. destruct (step a e); [apply IH | done].
Qed.

Lemma put_sets_steps (vs : list Z) (sm : nat)
    (msgs enq : list (@Actor.message bound_call)) (u : Result.outcome memory) :
  steps (put_sets vs)
    (Actor.mk_actor true sm msgs Actor.AtLoop 0 Actor.Alive u enq [] None) =
  Some (Actor.mk_actor true (sm + length vs) (msgs ++ set_messages vs)
          Actor.AtLoop 0 Actor.Alive u (enq ++ set_messages vs) [] None).
Proof.
  revert sm msgs enq. induction vs as [|v vs IH]; intros sm msgs enq.
  - simpl. by rewrite Nat.add_0_r, !app_nil_r.
  - change (put_sets (v :: vs)) with (put_set v ++ put_sets vs).
    rewrite enqueue_steps_app.
    change (steps (put_set v) _) with
      (Some (Actor.mk_actor true (S sm) (msgs ++ [Actor.Call (BoundSet v)])
               Actor.AtLoop 0 Actor.Alive u
               (enq ++ [Actor.Call (BoundSet v)]) [] None)).
    simpl. rewrite IH. simpl. rewrite <- !app_assoc.
    by rewrite ?Nat.add_succ_r, ?Nat.add_succ_l.
Qed.

Lemma put_get_steps (x : Z) (sm : nat)
    (msgs enq : list (@Actor.message bound_call)) :
  steps (put_get 1 2 3)
    (Actor.mk_actor true sm msgs Actor.AtLoop 0 Actor.Alive
       (Result.Done (mk_memory x Result.empty)) enq [] None) =
  Some (Actor.mk_actor true (S sm) (msgs ++ [Actor.Call (BoundGet 2)])
          Actor.AtLoop 0 Actor.Alive
          (Result.Done (mk_memory x pending))
          (enq ++ [Actor.Call (BoundGet 2)]) [] None).
Proof. vm_compute. reflexivity. Qed.

Lemma replay_sets (vs : list Z) (x : Z) (h : @Result.store Z) :
  Actor.replay (set_messages vs) (Result.Done (mk_memory x h)) =
  Result.Done (mk_memory (default x (last vs)) h).
Proof.
  revert x. induction vs as [|v vs IH]; intros x; [done|].
  change (Actor.replay (set_messages (v :: vs)) (Result.Done (mk_memory x h)))
    with (Actor.replay (set_messages vs) (Result.Done (mk_memory v h))).
  rewrite IH, (last_cons v vs). by destruct (last vs).
Qed.

Lemma has_exit_sets (vs : list Z) : Actor.has_exit (set_messages vs) = false.
Proof. by induction vs. Qed.

(** X12 (the integer of the example): whatever values are passed to [set]
    before and after a call of [get], once the worker has executed all these
    messages the future returned by [get] holds the value of the last [set]
    called before it (the initial value when there was none), the later
    calls of [set] do not change it, and the integer holds the value of the
    last [set] of all. *)
Theorem get_sees_the_sets_before_it (x : Z) (vs ws : list Z) :
  exists n a,
    steps (put_sets vs ++ put_get 1 2 3 ++ put_sets ws ++
           replicate n (Mailbox Actor.Run)) (init x) = Some a /\
    get 3 a = Result.Done (Some (default x (last vs))) /\
    value a = Result.Done (default x (last (vs ++ ws))) /\
    Actor.executed a =
      set_messages vs ++ [Actor.Call (BoundGet 2)] ++ set_messages ws /\
    Actor.worker a = Actor.AtWait.
Proof.
  set (q := set_messages vs ++ [Actor.Call (BoundGet 2)] ++ set_messages ws).
  set (u1 := Result.Done (mk_memory x pending)).
  set (a1 := Actor.mk_actor true (length q) q Actor.AtLoop 0 Actor.Alive
               u1 q [] None : integer).
  assert (steps (put_sets vs ++ put_get 1 2 3 ++ put_sets ws) (init x)
            = Some a1) as Hputs.
  { rewrite enqueue_steps_app. unfold init, Actor.init.
    rewrite put_sets_steps. cbn [mbind option_bind app length Nat.add].
    rewrite enqueue_steps_app, put_get_steps. cbn [mbind option_bind].
    rewrite put_sets_steps. unfold a1, q. rewrite <- !app_assoc.
    do 2 f_equal. unfold set_messages.
    rewrite !length_app, !length_map. simpl. lia. }
  assert (Actor.has_exit q = false) as Hq.
  { unfold q. rewrite !ActorFacts.has_exit_app, !has_exit_sets. done. }
  set (fuel := 4 * length q + 1).
  destruct (ActorFacts.run_alone_run fuel a1) as [n Hn].
  destruct (ActorFacts.run_alone_loop q a1 fuel) as [Hex Hw];
    [done | done | done | done | unfold fuel; lia |].
  rewrite Hq in Hw. rewrite ActorFacts.through_exit_no_exit in Hex by done.
  assert (Actor.inv u1 a1) as Hinv.
  { unfold Actor.inv, Actor.sem_inv, Actor.fifo_inv, Actor.loop_inv,
      Actor.dtor_inv, Actor.dtor_posting, Actor.at_lock. simpl.
    repeat split; try done; try lia. }
  destruct (ActorFacts.inv_steps u1 _ _ _ Hinv Hn) as (_ & [_ Hd] & _).
  rewrite Hex in Hd. simpl in Hd.
  assert (Actor.derived (Actor.run_alone fuel a1) =
            Result.Done (mk_memory (default x (last (vs ++ ws)))
                           (fulfilled (default x (last vs))))) as Hd'.
  { rewrite Hd. unfold q, u1. rewrite !ActorFacts.replay_app, replay_sets.
    change (Actor.replay [Actor.Call (BoundGet 2)]
              (Result.Done (mk_memory ?v pending)))
      with (Result.Done (mk_memory v (fulfilled v))).
    rewrite replay_sets. do 2 f_equal. rewrite last_app.
    by destruct (last ws). }
  exists n, (Actor.run_alone fuel a1).
  rewrite !app_assoc, enqueue_steps_app, <- !app_assoc, Hputs. simpl.
  change (replicate n (Mailbox Actor.Run))
    with (replicate n (Mailbox (Actor.Run (handler := bound_call)))).
  rewrite <- (fmap_replicate Mailbox), mailbox_steps.
  split; [exact Hn|]. unfold get, value. rewrite Hd'. by repeat split.
Qed.

End EnqueueFacts.

(** ** The overloads of put and of invoker::exec *)

Module ArityFacts.
Import Arity.

Lemma put_compiles_large (R : ret) (n : nat) :
  3 <= n -> put_compiles R n = false.
Proof.
  intros Hn. unfold put_compiles.
  do 3 (destruct n as [|n]; [lia|]). reflexivity.
Qed.

(** C8 on the code: [put] can enqueue member functions of 0 and 1
    parameters, and of 2 parameters when they return [void], and no others:
    not one of 2 parameters that returns a value, and none of 3 to 9
    parameters. *)
Theorem put_arities (R : ret) (n : nat) :
  (put_compiles R n = true <-> n <= 1 \/ (n = 2 /\ R = Void)) /\
  put_compiles Value 2 = false /\
  put_compiles Void 3 = false /\
  put_compiles Value 9 = false.
Proof.
  split; [|by repeat split].
  destruct (le_lt_dec 3 n) as [Hn|Hn].
  - rewrite put_compiles_large by done. split; [done | lia].
  - do 3 (destruct n as [|n]; [destruct R; vm_compute; split; first [done | lia | tauto | intuition (lia || discriminate)] |]).
    lia.
Qed.

(** X13 (the message classes): [exec] of [object_message_n] compiles for
    every [n] from 0 to 9 when the member function returns [void], and only
    for 0 and 1 when it returns a value: the overloads of the primary
    [invoker] for 2 to 9 parameters take a [result<void>] and a function
    that returns [void]. *)
Theorem message_exec_compiles (R : ret) (n : nat) :
  exec_compiles R n = true <-> n <= 9 /\ (R = Void \/ n <= 1).
Proof.
  do 10 (destruct n as [|n];
         [destruct R; vm_compute;
          (split; [intros; first [done | split; [lia | first [by left | right; lia]]]
                  | intros [_ [?|?]]; first [done | lia]]) |]).
  split; [by destruct R | lia].
Qed.

End ArityFacts.

(** ** The ping-pong program of the example *)

Module PingPongFacts.
Import PingPong.

Example one_round_reached : steps one_round (init 1) = Some one_round_done.
Proof. vm_compute. reflexivity. Qed.

(** The summaries follow the program step by step. *)
Lemma summary_simulates (a : summary) (t : thread) :
  step (world_of a) t = world_of <$> summary_step a t.
Proof.
  destruct a as [o c v st ap aq], t as [| | |s0].
  - destruct st; reflexivity.
  - destruct c; reflexivity.
  - destruct st as [|[] [x|]|[] [x|]|[] [x|]|[]|[]|[]|[] [x|]|];
      reflexivity.
  - destruct st as [|[] p|[] p|[] p|[]|[]|[]|[] p|], s0;
      try reflexivity.
    all: unfold step, summary_step; cbn; by destruct (0 <? v)%Z.
Qed.

Lemma remaining_unfold (s : side) (v : Z) :
  remaining s v =
    if (0 <? v)%Z then line v s :: remaining (other s) (v - 1) else [].
Proof.
  unfold remaining. destruct (0 <? v)%Z eqn:Hv.
  - apply Z.ltb_lt in Hv.
    replace (Z.to_nat v) with (S (Z.to_nat (v - 1))) by lia. done.
  - apply Z.ltb_ge in Hv. by replace (Z.to_nat v) with 0 by lia.
Qed.

Lemma other_other (s : side) : other (other s) = s.
Proof. by destruct s. Qed.

Lemma remaining_lines_countdown (k : nat) (s : side) (v : Z) :
  remaining_lines k s v =
    map (fun i => line (v - Z.of_nat i) (if Nat.even i then s else other s))
      (seq 0 k).
Proof.
  revert s v. induction k as [|k IH]; intros s v; [done|].
  cbn [remaining_lines seq map]. rewrite IH, <- seq_shift, map_map.
  f_equal; [by rewrite Z.sub_0_r|].
  apply map_ext. intros i. rewrite other_other, Nat.even_succ.
  rewrite <- Nat.negb_even.
  replace (v - 1 - Z.of_nat i)%Z with (v - Z.of_nat (S i))%Z by lia.
  by destruct (Nat.even i).
Qed.

Lemma remaining_countdown (n : Z) : remaining Pong n = countdown n.
Proof. apply remaining_lines_countdown. Qed.

(** A step neither loses nor adds a line. *)
Lemma all_lines_step (a a' : summary) (t : thread) :
  summary_step a t = Some a' -> all_lines a' = all_lines a.
Proof.
  destruct a as [o c v st ap aq]. unfold all_lines, todo.
  destruct t as [| | |s0]; cbn.
  - destruct st; intros; simplify_eq; cbn; by rewrite <- ?app_assoc.
  - destruct c; intros; simplify_eq; cbn. by rewrite <- app_assoc.
  - destruct st as [|s p|s p|s p|s|s|s|s p|]; try done;
      try destruct p; intros; by simplify_eq.
  - destruct st as [|s p|s p|s p|s|s|s|s p|]; try done;
      destruct (side_eqb _ _); try done; intros; simplify_eq; try done.
    + by destruct s.
    + rewrite (remaining_unfold s v).
      destruct (0 <? v)%Z; simplify_eq; cbn; by rewrite <- ?app_assoc.
Qed.

(** Every step is one of the steps counted by [steps_left]. *)
Lemma steps_left_step (a a' : summary) (t : thread) :
  summary_step a t = Some a' -> S (steps_left a') = steps_left a.
Proof.
  destruct a as [o c v st ap aq]. unfold steps_left.
  destruct t as [| | |s0]; cbn.
  - destruct st; intros; simplify_eq; cbn; lia.
  - destruct c; intros; simplify_eq; cbn. lia.
  - destruct st as [|s p|s p|s p|s|s|s|s p|]; try done;
      try destruct p; intros; simplify_eq; cbn; lia.
  - destruct st as [|s p|s p|s p|s|s|s|s p|]; try done;
      destruct (side_eqb _ _); try done; intros; simplify_eq; cbn;
      try lia.
    all: try (destruct p; cbn; lia).
    all: try (destruct s; cbn; lia).
    destruct (0 <? v)%Z eqn:Hv; simplify_eq; cbn.
    + apply Z.ltb_lt in Hv. rewrite length_app. cbn. lia.
    + apply Z.ltb_ge in Hv. lia.
Qed.

(** As long as steps are left, some thread can take one. *)
Lemma summary_progress (a : summary) :
  0 < steps_left a -> exists t a', summary_step a t = Some a'.
Proof.
  destruct a as [o c v st ap aq]. unfold steps_left. cbn. intros Hl.
  destruct st as [|s p|s p|s p|s|s|s|s p|].
  - by exists Main; eexists.
  - exists (Player s). destruct s; by eexists.
  - exists (Player s). destruct s; by eexists.
  - destruct p; by exists Value; eexists.
  - exists (Player s). destruct s; by eexists.
  - exists (Player s). cbn. destruct s, (0 <? v)%Z; by eexists.
  - exists (Player s). destruct s; by eexists.
  - exists (Player s). destruct s; by eexists.
  - destruct c as [|l q]; [cbn in Hl; lia|]. by exists Console; eexists.
Qed.

Lemma steps_left_zero (a : summary) :
  steps_left a = 0 -> s_stage a = Finished /\ s_console a = [].
Proof.
  destruct a as [o c v st ap aq]. unfold steps_left. cbn.
  destruct st, c; cbn; try lia; done.
Qed.

Lemma summary_steps (tr : list thread) (a : summary) (w : world) :
  steps tr (world_of a) = Some w ->
  exists a', w = world_of a' /\ all_lines a' = all_lines a /\
    length tr + steps_left a' = steps_left a.
Proof.
  revert a. induction tr as [|t tr IH]; intros a H.
  - simpl in H. simplify_eq. by exists a.
  - cbn [steps] in H. rewrite summary_simulates in H.
    destruct (summary_step a t) as [a1|] eqn:Ha; [|done].
    cbn in H. destruct (IH a1 H) as (a' & -> & Hall & Hlen).
    exists a'. split; [done|].
    rewrite Hall, (all_lines_step a a1 t Ha). split; [done|].
    pose proof (steps_left_step a a1 t Ha). cbn [length]. lia.
Qed.

(** X14 (the example program): whatever the schedule of its five threads,
    the program with [value(n)] writes the banner and then the lines of the
    count-down from [n] in order, it takes at most [9 n + 7] steps, it can
    always take a step until it has taken them all, and when no thread can
    move any more (all are blocked: [main] in [getchar], the workers on
    their empty lists) the whole count-down has been written and nothing
    else. *)
Theorem pingpong_counts_down (n : Z) (tr : list thread) (w : world) :
  steps tr (init n) = Some w ->
  out w `prefix_of` banner :: countdown n /\
  length tr <= total_steps n /\
  (length tr < total_steps n -> exists t w', step w t = Some w') /\
  ((forall t, step w t = None) ->
     out w = banner :: countdown n /\ console_q w = [] /\
     length tr = total_steps n).
Proof.
  intros H. destruct tr as [|t tr].
  { simpl in H. simplify_eq. unfold total_steps. cbn [length].
    split; [by eexists|]. split; [lia|]. split.
    - intros _. by exists Main; eexists.
    - intros Hstuck. by specialize (Hstuck Main). }
  cbn [steps] in H. destruct t as [| | |[]]; [|discriminate H..].
  change (step (init n) Main) with (Some (world_of (summary_init n))) in H.
  destruct (summary_steps tr _ _ H) as (a & -> & Hall & Hlen).
  change (steps_left (summary_init n)) with (9 * Z.to_nat n + 6) in Hlen.
  change (all_lines (summary_init n)) with (banner :: remaining Pong n) in Hall.
  rewrite remaining_countdown in Hall. unfold total_steps. cbn [length].
  assert (0 < steps_left a -> exists t w', step (world_of a) t = Some w')
    as Hprog.
  { intros Hl. destruct (summary_progress a Hl) as (t & a' & Ha).
    exists t, (world_of a'). by rewrite summary_simulates, Ha. }
  split; [|split; [lia|split]].
  - exists (s_console a ++ todo a). by rewrite <- Hall.
  - intros Hlt. apply Hprog. lia.
  - intros Hstuck.
    assert (steps_left a = 0) as Hz.
    { destruct (steps_left a) eqn:Hs; [done|].
      destruct Hprog as (t & w' & Hw); [lia|]. by rewrite Hstuck in Hw. }
    destruct (steps_left_zero a Hz) as [Hst Hc].
    unfold all_lines, todo in Hall. rewrite Hst, Hc, !app_nil_r in Hall.
    repeat split; [done | done | lia].
Qed.

Lemma pingpong_counts_down_witness :
  out one_round_done = banner :: countdown 1 /\
  console_q one_round_done = [] /\
  length one_round = total_steps 1.
Proof.
  refine (proj2 (proj2 (proj2
    (pingpong_counts_down 1 one_round one_round_done _))) _).
  - vm_compute. reflexivity.
  - intros [| | |[]]; reflexivity.
Defined.

End PingPongFacts.
